(** * mkgfd.utils: indices over an RDF graph and the assertion equivalence test

    A shallow embedding of [src/mkgfd/utils.py]: the sparse dictionary
    [DictDefault], the value normaliser [cast_xsd], the index builders
    [generate_data_type_map], [generate_object_type_map] and
    [generate_predicate_map], the support counter [predicate_frequency]
    and the equivalence test [isEquivalent] with its helper [isSameType].

    Python dictionaries are finite maps ([gmap]), Python sets are finite
    sets ([gset]), a raised exception is the [Raise] outcome of [result].
    The rdflib graph is the list of its triples in iteration order. *)

From Stdlib Require Import SpecFloat Ascii.
From stdpp Require Import gmap strings list fin_maps pretty.

Local Open Scope Z_scope.
Local Open Scope string_scope.

(** ** Python outcomes *)

(** The exception classes that the modelled code can meet. *)
Inductive exn : Set :=
| ValueError
| TypeError
| OverflowError
| AttributeError
| KeyError.

Inductive result (A : Type) : Type :=
| Ok (a : A)
| Raise (e : exn).
Arguments Ok {A} a.
Arguments Raise {A} e.

#[global] Instance exn_eq_dec : EqDecision exn.
Proof. solve_decision. Defined.

#[global] Instance result_ret : MRet result := λ A a, Ok a.
#[global] Instance result_bind : MBind result := λ A B f r,
  match r with
  | Ok a => f a
  | Raise e => Raise e
  end.

(** [try: body  except ValueError: pass], where [kept] is the value the
    assigned variable holds when the handler is entered. *)
Definition except_ValueError {A} (body : result A) (kept : A) : result A :=
  match body with
  | Ok a => Ok a
  | Raise ValueError => Ok kept
  | Raise e => Raise e
  end.

(** ** Python values and rdflib nodes *)

Record date : Set := mkdate { year : Z; month : Z; day : Z }.

Record datetime : Set := mkdatetime {
  dt_date : date;
  hour : Z; minute : Z; second : Z; microsecond : Z;
  tzinfo : option Z  (* UTC offset in minutes, [None] for a naive datetime *)
}.

(** The plain Python values a literal can convert to, and that [cast_xsd]
    produces: [str], [int], [float] (IEEE binary64), [date], [datetime]. *)
Inductive pyprim : Set :=
| VStr (s : string)
| VInt (z : Z)
| VFloat (f : spec_float)
| VDate (d : date)
| VDateTime (dt : datetime).

(** rdflib terms.  A [Literal] has a lexical form, an optional datatype IRI,
    an optional language tag and the Python value rdflib computed for it at
    construction ([Literal.value]; [None] when the datatype is unknown or
    the lexical form is ill-typed). *)
Inductive Node : Set :=
| URIRef (iri : string)
| BNode (id : string)
| Literal (lexical : string) (datatype : option string)
          (language : option string) (value : option pyprim).

(** What a Python variable of [cast_xsd] can hold: a graph node or a plain
    value. *)
Inductive pyval : Set :=
| PyNode (n : Node)
| PyPrim (v : pyprim).

#[global] Instance spec_float_eq_dec : EqDecision spec_float.
Proof. solve_decision. Defined.
#[global] Instance date_eq_dec : EqDecision date.
Proof. solve_decision. Defined.
#[global] Instance datetime_eq_dec : EqDecision datetime.
Proof. solve_decision. Defined.
#[global] Instance pyprim_eq_dec : EqDecision pyprim.
Proof. solve_decision. Defined.
#[global] Instance Node_eq_dec : EqDecision Node.
Proof. solve_decision. Defined.
#[global] Instance pyval_eq_dec : EqDecision pyval.
Proof. solve_decision. Defined.

#[global] Instance spec_float_countable : Countable spec_float.
Proof.
  refine (inj_countable'
    (λ f, match f with
          | S754_zero s => inl (inl s)
          | S754_infinity s => inl (inr s)
          | S754_nan => inr (inl ())
          | S754_finite s m e => inr (inr (s, m, e))
          end)
    (λ x, match x with
          | inl (inl s) => S754_zero s
          | inl (inr s) => S754_infinity s
          | inr (inl _) => S754_nan
          | inr (inr (s, m, e)) => S754_finite s m e
          end) _).
  by intros [].
Defined.

#[global] Instance date_countable : Countable date.
Proof.
  refine (inj_countable' (λ d, (year d, month d, day d))
                         (λ '(y, m, d), mkdate y m d) _).
  by intros [].
Defined.

#[global] Instance datetime_countable : Countable datetime.
Proof.
  refine (inj_countable'
    (λ t, (dt_date t, hour t, minute t, second t, microsecond t, tzinfo t))
    (λ '(d, h, m, s, u, z), mkdatetime d h m s u z) _).
  by intros [].
Defined.

#[global] Instance pyprim_countable : Countable pyprim.
Proof.
  refine (inj_countable'
    (λ v, match v with
          | VStr s => inl (inl s)
          | VInt z => inl (inr z)
          | VFloat f => inr (inl f)
          | VDate d => inr (inr (inl d))
          | VDateTime t => inr (inr (inr t))
          end)
    (λ x, match x with
          | inl (inl s) => VStr s
          | inl (inr z) => VInt z
          | inr (inl f) => VFloat f
          | inr (inr (inl d)) => VDate d
          | inr (inr (inr t)) => VDateTime t
          end) _).
  by intros [].
Defined.

#[global] Instance Node_countable : Countable Node.
Proof.
  refine (inj_countable'
    (λ n, match n with
          | URIRef i => inl (inl i)
          | BNode i => inl (inr i)
          | Literal l d g v => inr (l, d, g, v)
          end)
    (λ x, match x with
          | inl (inl i) => URIRef i
          | inl (inr i) => BNode i
          | inr (l, d, g, v) => Literal l d g v
          end) _).
  by intros [].
Defined.

(** [isinstance(x, Literal)] and [isinstance(x, URIRef)] on nodes. *)
Definition is_Literal (n : Node) : bool :=
  match n with Literal _ _ _ _ => true | _ => false end.
Definition is_URIRef (n : Node) : bool :=
  match n with URIRef _ => true | _ => false end.

(** [str(n)]: every rdflib term is a [str] whose text is its IRI, its
    blank-node identifier or its lexical form. *)
Definition Node_str (n : Node) : string :=
  match n with
  | URIRef i => i
  | BNode i => i
  | Literal l _ _ _ => l
  end.

(** The vocabulary terms the module imports from [rdflib.namespace]. *)
Definition XSD (name : string) : Node :=
  URIRef ("http://www.w3.org/2001/XMLSchema#" +:+ name).
Definition RDF_type : Node :=
  URIRef "http://www.w3.org/1999/02/22-rdf-syntax-ns#type".
Definition RDFS_Class : Node :=
  URIRef "http://www.w3.org/2000/01/rdf-schema#Class".
Definition RDFS_label : Node :=
  URIRef "http://www.w3.org/2000/01/rdf-schema#label".

(** ** The graph *)

Definition Triple : Set := Node * Node * Node.
Definition Graph : Set := list Triple.

Definition subject_of (t : Triple) : Node := t.1.1.
Definition predicate_of (t : Triple) : Node := t.1.2.
Definition object_of (t : Triple) : Node := t.2.

(** One position of a triple pattern: [None] is the wildcard. *)
Definition pattern_match (pat : option Node) (n : Node) : bool :=
  match pat with
  | None => true
  | Some x => bool_decide (x = n)
  end.

(** [g.triples((s, p, o))] *)
Definition triples (g : Graph) (s p o : option Node) : list Triple :=
  List.filter (λ t, pattern_match s (subject_of t)
                    && pattern_match p (predicate_of t)
                    && pattern_match o (object_of t)) g.

(** [g.objects(subject, predicate)] and [g.subjects(predicate, object)]:
    one element per matching triple. *)
Definition objects (g : Graph) (s p : option Node) : list Node :=
  object_of <$> triples g s p None.
Definition subjects (g : Graph) (p o : option Node) : list Node :=
  subject_of <$> triples g None p o.

(** ** DictDefault *)

(** [class DictDefault(dict)]: a dictionary with the extra slot [_default].
    The mapping part is the inherited [dict] storage. *)
Record DictDefault (K V : Type) `{Countable K} : Type := mkDictDefault {
  _default : V;
  items : gmap K V
}.
Arguments mkDictDefault {K V _ _} _ _.
Arguments _default {K V _ _} _.
Arguments items {K V _ _} _.

Section DictDefault_ops.
Context {K V : Type} `{Countable K}.

(** [DictDefault(default)]: [__init__] stores the default and builds an
    empty dictionary. *)
Definition DictDefault_init (default : V) : DictDefault K V :=
  mkDictDefault default ∅.

(** [__missing__(self, key)]: returns the stored default; nothing is
    written. *)
Definition __missing__ (self : DictDefault K V) (key : K) : V :=
  _default self.

(** [self[key]]: [dict.__getitem__] returns the stored value and, in a
    subclass that defines it, calls [__missing__] for an absent key. *)
Definition getitem (self : DictDefault K V) (key : K) : V :=
  match items self !! key with
  | Some v => v
  | None => __missing__ self key
  end.

(** [self[key] = value] *)
Definition setitem (self : DictDefault K V) (key : K) (value : V)
  : DictDefault K V :=
  mkDictDefault (_default self) (<[key := value]> (items self)).

(** [self.keys()] and [key in self]: the inherited ones, over the storage. *)
Definition keys (self : DictDefault K V) : gset K := dom (items self).
Definition contains (self : DictDefault K V) (key : K) : bool :=
  bool_decide (key ∈ keys self).

(** A client's view of the dictionary: the operations it can issue and what
    each one gives back.  Every operation is a state transformer, so that
    what a lookup does to the dictionary is part of its meaning. *)
Inductive dict_op : Type :=
| OpSet (key : K) (value : V)
| OpGet (key : K)
| OpContains (key : K).

Inductive dict_obs : Type :=
| ObsNone
| ObsValue (v : V)
| ObsBool (b : bool).

Definition dict_step (self : DictDefault K V) (op : dict_op)
  : DictDefault K V * dict_obs :=
  match op with
  | OpSet key value => (setitem self key value, ObsNone)
  | OpGet key => (self, ObsValue (getitem self key))
  | OpContains key => (self, ObsBool (contains self key))
  end.

Definition dict_run (self : DictDefault K V) (ops : list dict_op)
  : DictDefault K V :=
  foldl (λ d op, (dict_step d op).1) self ops.

(** The keys a sequence of operations stores explicitly. *)
Definition stored_keys (ops : list dict_op) : list K :=
  omap (λ op, match op with OpSet key _ => Some key | _ => None end) ops.

(** The value the latest store to [key] wrote, if there was one. *)
Fixpoint last_stored (ops : list dict_op) (key : K) : option V :=
  match ops with
  | [] => None
  | op :: ops' =>
      match last_stored ops' key with
      | Some v => Some v
      | None => match op with
                | OpSet key' value => if decide (key' = key) then Some value else None
                | _ => None
                end
      end
  end.

End DictDefault_ops.

(** [self[key].add(x)] on a dictionary of sets.  The set that [self[key]]
    returns is mutated in place: for a stored key that is the stored set,
    for an absent key it is the one default object held in [_default]. *)
Definition add_at {K A : Type} `{Countable K} `{Countable A}
    (self : DictDefault K (gset A)) (key : K) (x : A)
  : DictDefault K (gset A) :=
  match items self !! key with
  | Some s => mkDictDefault (_default self) (<[key := s ∪ {[x]}]> (items self))
  | None => mkDictDefault (_default self ∪ {[x]}) (items self)
  end.

(** ** The index builders *)

(** The two-entry dictionary [{'object-to-type': ..., 'type-to-object': ...}]
    that both type maps are.  [V] is what an object maps to: a datatype (or
    Python's [None]) in the data type map, a set of classes in the object
    type map. *)
Record TypeMap (V : Type) : Type := mkTypeMap {
  object_to_type : DictDefault Node V;
  type_to_object : DictDefault Node (gset Node)
}.
Arguments mkTypeMap {V} _ _.
Arguments object_to_type {V} _.
Arguments type_to_object {V} _.

(** The keys of that outer dictionary are the two plain strings. *)
Definition TypeMap_keys : list string := ["object-to-type"; "type-to-object"].

(** [node == s] for an rdflib term and a plain [str]:
    [Identifier.__eq__] answers [False] unless both operands have the same
    class, whatever the text. *)
Definition Identifier_eq_str (n : Node) (s : string) : bool := false.

(** [dtype in data_type_map.keys()] *)
Definition in_TypeMap_keys (dtype : Node) : bool :=
  existsb (Identifier_eq_str dtype) TypeMap_keys.

(** The datatype [generate_data_type_map] assigns to a literal. *)
Definition literal_dtype (datatype language : option string) : Node :=
  match datatype with
  | Some d => URIRef d
  | None => match language with
            | Some _ => XSD "string"
            | None => XSD "anyType"
            end
  end.

(** The loop body of [generate_data_type_map]. *)
Definition data_type_step (data_type_map : TypeMap (option Node)) (o : Node)
  : TypeMap (option Node) :=
  match o with
  | Literal _ datatype language _ =>
      let dtype := literal_dtype datatype language in
      let t2o := type_to_object data_type_map in
      let t2o := if negb (in_TypeMap_keys dtype)
                 then setitem t2o dtype ∅ else t2o in
      let t2o := add_at t2o dtype o in
      let o2t := setitem (object_to_type data_type_map) o (Some dtype) in
      mkTypeMap o2t t2o
  | _ => data_type_map
  end.

Definition generate_data_type_map (g : Graph) : TypeMap (option Node) :=
  foldl data_type_step
        (mkTypeMap (DictDefault_init None) (DictDefault_init ∅))
        (objects g None None).

(** The inner loop body of [generate_object_type_map]. *)
Definition object_type_inner (e : Node) (object_type_map : TypeMap (gset Node))
    (ctype : Node) : TypeMap (gset Node) :=
  let t2o := type_to_object object_type_map in
  let o2t := object_to_type object_type_map in
  let t2o := if bool_decide (ctype ∉ keys t2o)
             then setitem t2o ctype ∅ else t2o in
  let o2t := if bool_decide (e ∉ keys o2t)
             then setitem o2t e ∅ else o2t in
  mkTypeMap (add_at o2t e ctype) (add_at t2o ctype e).

(** [ctypes] of the outer loop body: the asserted classes, or the generic
    class when there is none. *)
Definition ctypes_of (g : Graph) (e : Node) : list Node :=
  let ctypes := objects g (Some e) (Some RDF_type) in
  if (Z.of_nat (length ctypes) <=? 0)%Z then ctypes ++ [RDFS_Class] else ctypes.

Definition object_type_step (g : Graph) (object_type_map : TypeMap (gset Node))
    (e : Node) : TypeMap (gset Node) :=
  if negb (is_URIRef e) then object_type_map
  else foldl (object_type_inner e) object_type_map (ctypes_of g e).

Definition generate_object_type_map (g : Graph) : TypeMap (gset Node) :=
  foldl (object_type_step g)
        (mkTypeMap (DictDefault_init ∅) (DictDefault_init ∅))
        (subjects g None None).

(** An entry of the predicate map:
    [{'forwards': DictDefault(set()), 'backwards': DictDefault(set())}]. *)
Record PredicateEntry : Type := mkPredicateEntry {
  forwards : DictDefault Node (gset Node);
  backwards : DictDefault Node (gset Node)
}.

(** [d[key]] on a plain [dict]: [KeyError] for an absent key. *)
Definition dict_getitem {K V : Type} `{Countable K} (d : gmap K V) (key : K)
  : result V :=
  match d !! key with
  | Some v => Ok v
  | None => Raise KeyError
  end.

(** The loop body of [generate_predicate_map].  The predicate map is a plain
    dictionary, so each [predicate_map[predicate]] can raise. *)
Definition predicate_step (predicate_map : gmap Node PredicateEntry)
    (t : Triple) : result (gmap Node PredicateEntry) :=
  let '(lhs, predicate, rhs) := t in
  let predicate_map :=
    if bool_decide (predicate ∉ dom predicate_map)
    then <[predicate := mkPredicateEntry (DictDefault_init ∅)
                                         (DictDefault_init ∅)]> predicate_map
    else predicate_map in
  entry ← dict_getitem predicate_map predicate;
  let fw := if bool_decide (lhs ∉ keys (forwards entry))
            then setitem (forwards entry) lhs {[rhs]}
            else add_at (forwards entry) lhs rhs in
  let predicate_map :=
    <[predicate := mkPredicateEntry fw (backwards entry)]> predicate_map in
  entry ← dict_getitem predicate_map predicate;
  let bw := if bool_decide (rhs ∉ keys (backwards entry))
            then setitem (backwards entry) rhs {[lhs]}
            else add_at (backwards entry) rhs lhs in
  Ok (<[predicate := mkPredicateEntry (forwards entry) bw]> predicate_map).

(** A [for] loop whose body can raise. *)
Fixpoint for_each {S A : Type} (body : S → A → result S) (s : S) (l : list A)
  : result S :=
  match l with
  | [] => Ok s
  | x :: l' => s' ← body s x; for_each body s' l'
  end.

Definition generate_predicate_map (g : Graph)
  : result (gmap Node PredicateEntry) :=
  for_each predicate_step ∅ (triples g None None None).

(** ** Assertions, the cache and the support counter *)

(** Modelled from the spec: the classes of [mkgfd.structures], which
    [utils.py] imports and which are not among the sources.  An endpoint of
    an assertion is a concrete resource or one of the three type variables,
    each carrying one attribute [type]; an assertion is the triple
    [(lhs, predicate, rhs)].  [==] on endpoints is equality of the tagged
    values: rdflib's on two resources, same variant and same [type] on two
    variables, [False] across the two. *)
Inductive Term : Set :=
| Resource (n : Node)
| ObjectTypeVariable (type : Node)
| DataTypeVariable (type : Node)
| MultiModalNode (type : Node).

Record Assertion : Set := mkAssertion {
  lhs : Term;
  predicate : Node;
  rhs : Term
}.

#[global] Instance Term_eq_dec : EqDecision Term.
Proof. solve_decision. Defined.

(** [x.type], for the endpoints that have the attribute. *)
Definition Term_type (x : Term) : option Node :=
  match x with
  | Resource _ => None
  | ObjectTypeVariable t | DataTypeVariable t | MultiModalNode t => Some t
  end.

Definition isinstance_ObjectTypeVariable (x : Term) : bool :=
  match x with ObjectTypeVariable _ => true | _ => false end.
Definition isinstance_DataTypeVariable (x : Term) : bool :=
  match x with DataTypeVariable _ => true | _ => false end.
Definition isinstance_MultiModalNode (x : Term) : bool :=
  match x with MultiModalNode _ => true | _ => false end.
Definition isinstance_TypeVariable (x : Term) : bool :=
  match x with Resource _ => false | _ => true end.

(** [cache]: the two type maps the equivalence test reads. *)
Record Cache : Type := mkCache {
  object_type_map : TypeMap (gset Node);
  data_type_map : TypeMap (option Node)
}.

(** [predicate_frequency]: the predicate map is a plain dictionary, hence
    the [KeyError] outcome; [set & keys()] is the intersection and [len] its
    cardinality. *)
Definition predicate_frequency (predicate_map : gmap Node PredicateEntry)
    (assertion : Assertion) (assertion_domain : gset Node) : result nat :=
  entry ← dict_getitem predicate_map (predicate assertion);
  Ok (size (assertion_domain ∩ keys (forwards entry))).

(** ** The equivalence test *)

Definition isSameType (resourceA resourceB : Term) (cache : Cache) : bool :=
  if isinstance_ObjectTypeVariable resourceA
     && match resourceB with
        | Resource n =>
            is_URIRef n
            && contains (object_to_type (object_type_map cache)) n
            && existsb (λ ctype, bool_decide (Some ctype = Term_type resourceA))
                 (elements (getitem (object_to_type (object_type_map cache)) n))
        | _ => false
        end
  then true
  else if (isinstance_DataTypeVariable resourceA
           || isinstance_MultiModalNode resourceA)
          && match resourceB with
             | Resource n =>
                 is_Literal n
                 && contains (object_to_type (data_type_map cache)) n
                 && bool_decide (Term_type resourceA
                                 = getitem (object_to_type (data_type_map cache)) n)
             | _ => false
             end
  then true
  else false.

Definition isEquivalent (assertionA assertionB : Assertion) (cache : Cache)
  : bool :=
  if negb (isinstance_ObjectTypeVariable (lhs assertionA)
           && isinstance_ObjectTypeVariable (lhs assertionB)
           && bool_decide (Term_type (lhs assertionA)
                           = Term_type (lhs assertionB)))
     || bool_decide (predicate assertionA ≠ predicate assertionB)
  then false
  else bool_decide (rhs assertionA = rhs assertionB)
       || (isinstance_TypeVariable (rhs assertionA)
           && isinstance_TypeVariable (rhs assertionB)
           && bool_decide (Term_type (rhs assertionA)
                           = Term_type (rhs assertionB)))
       || isSameType (rhs assertionA) (rhs assertionB) cache
       || isSameType (rhs assertionB) (rhs assertionA) cache.

(** ** The value normaliser *)

(** Modelled from the spec: the four datatype families of
    [mkgfd.multimodal] ([XSD_NUMERIC], [XSD_DATETIME], [XSD_DATEFRAG],
    [XSD_STRING]), which [utils.py] imports and which are not among the
    sources: numeric, datetime, date-fragment and string datatypes. *)
Definition XSD_NUMERIC : list Node :=
  XSD <$> ["integer"; "nonNegativeInteger"; "positiveInteger";
           "negativeInteger"; "nonPositiveInteger";
           "float"; "decimal"; "double"].
Definition XSD_DATETIME : list Node :=
  XSD <$> ["date"; "dateTime"; "dateTimeStamp"; "gYear"; "gYearMonth"].
Definition XSD_DATEFRAG : list Node :=
  XSD <$> ["gDay"; "gMonth"; "gMonthDay"].
Definition XSD_STRING : list Node :=
  XSD <$> ["string"; "normalizedString"].

(** What [cast_xsd] calls and this development leaves open: the two
    parsers of the Python library on a [str] ([None] is their [ValueError]),
    the two printers [str(float)] and [str(datetime)], and the routine
    [gFrag_to_days] of [mkgfd.timeutils], which is not among the sources
    and may raise. *)
Record Builtins : Type := mkBuiltins {
  float_of_str : string → option spec_float;
  fromisoformat_str : string → option datetime;
  float_str : spec_float → string;
  datetime_str : datetime → string;
  gFrag_to_days : string → Node → result Z
}.

#[global] Instance result_fmap : FMap result := λ A B f r,
  match r with
  | Ok a => Ok (f a)
  | Raise e => Raise e
  end.

Definition ValueError_if_None {A} (o : option A) : result A :=
  match o with
  | Some a => Ok a
  | None => Raise ValueError
  end.

(** [node.toPython()]: [URIRef] and [BNode] give their text, a [Literal]
    gives its Python value, or itself when it has none; a plain Python value
    has no such method. *)
Definition toPython (node : pyval) : result pyval :=
  match node with
  | PyNode (URIRef i) => Ok (PyPrim (VStr i))
  | PyNode (BNode i) => Ok (PyPrim (VStr i))
  | PyNode (Literal _ _ _ (Some v)) => Ok (PyPrim v)
  | PyNode (Literal _ _ _ None) => Ok node
  | PyPrim _ => Raise AttributeError
  end.

(** [float(int)]: the nearest binary64, [OverflowError] when that is
    beyond the largest finite one. *)
Definition float_of_int (z : Z) : result spec_float :=
  match binary_normalize 53 1024 z 0 false with
  | S754_infinity _ => Raise OverflowError
  | f => Ok f
  end.

(** [float(x)] *)
Definition py_float (B : Builtins) (x : pyval) : result pyval :=
  match x with
  | PyNode n => PyPrim ∘ VFloat <$> ValueError_if_None (float_of_str B (Node_str n))
  | PyPrim (VStr s) => PyPrim ∘ VFloat <$> ValueError_if_None (float_of_str B s)
  | PyPrim (VInt z) => PyPrim ∘ VFloat <$> float_of_int z
  | PyPrim (VFloat f) => Ok (PyPrim (VFloat f))
  | PyPrim (VDate _) | PyPrim (VDateTime _) => Raise TypeError
  end.

(** [datetime.fromisoformat(x)]: the argument must be a [str]. *)
Definition py_fromisoformat (B : Builtins) (x : pyval) : result pyval :=
  match x with
  | PyNode n =>
      PyPrim ∘ VDateTime <$> ValueError_if_None (fromisoformat_str B (Node_str n))
  | PyPrim (VStr s) =>
      PyPrim ∘ VDateTime <$> ValueError_if_None (fromisoformat_str B s)
  | PyPrim _ => Raise TypeError
  end.

(** [isinstance(x, date)]: [datetime] is a subclass of [date]. *)
Definition isinstance_date (x : pyval) : option date :=
  match x with
  | PyPrim (VDate d) => Some d
  | PyPrim (VDateTime t) => Some (dt_date t)
  | _ => None
  end.

(** Decimal digits of [z], left-padded with zeros to [width]. *)
Definition zfill (width : nat) (z : Z) : string :=
  let s := pretty (Z.to_N z) in
  String.concat "" (replicate (width - String.length s) "0") +:+ s.

(** [d.isoformat()] on a date. *)
Definition date_isoformat (d : date) : string :=
  zfill 4 (year d) +:+ "-" +:+ zfill 2 (month d) +:+ "-" +:+ zfill 2 (day d).

(** [datetime.combine(d, time()).isoformat()]: the date at midnight; of a
    [datetime] argument only the date part is used. *)
Definition combine_midnight_isoformat (d : date) : string :=
  date_isoformat d +:+ "T00:00:00".

(** [str(x)] *)
Definition py_str (B : Builtins) (x : pyval) : string :=
  match x with
  | PyNode n => Node_str n
  | PyPrim (VStr s) => s
  | PyPrim (VInt z) => pretty z
  | PyPrim (VFloat f) => float_str B f
  | PyPrim (VDate d) => date_isoformat d
  | PyPrim (VDateTime t) => datetime_str B t
  end.

(** [str.strip()] and [str.lower()], on ASCII text: the white space of
    Python among the first 128 characters is 9 to 13 and 28 to 32. *)
Definition py_isspace (a : ascii) : bool :=
  let n := nat_of_ascii a in
  ((9 <=? n) && (n <=? 13) || (28 <=? n) && (n <=? 32))%nat.

Fixpoint lstrip (s : string) : string :=
  match s with
  | String a s' => if py_isspace a then lstrip s' else s
  | EmptyString => EmptyString
  end.

Definition strip (s : string) : string :=
  String.rev (lstrip (String.rev (lstrip s))).

Definition lower_ascii (a : ascii) : ascii :=
  let n := nat_of_ascii a in
  if ((65 <=? n) && (n <=? 90))%nat then ascii_of_nat (n + 32) else a.

Fixpoint lower (s : string) : string :=
  match s with
  | String a s' => String (lower_ascii a) (lower s')
  | EmptyString => EmptyString
  end.

Definition cast_xsd (B : Builtins) (node : pyval) (dtype : Node)
  : result pyval :=
  node ← toPython node;
  if bool_decide (dtype ∈ XSD_NUMERIC) then
    except_ValueError (py_float B node) node
  else if bool_decide (dtype ∈ XSD_DATETIME) then
    let node := match isinstance_date node with
                | Some d => PyPrim (VStr (combine_midnight_isoformat d))
                | None => node
                end in
    except_ValueError (py_fromisoformat B node) node
  else if bool_decide (dtype ∈ XSD_DATEFRAG) then
    except_ValueError
      (PyPrim ∘ VInt <$> gFrag_to_days B (py_str B node) dtype) node
  else if bool_decide (dtype ∈ XSD_STRING) then
    except_ValueError (Ok (PyPrim (VStr (lower (strip (py_str B node)))))) node
  else Ok node.

(** ** Object identity *)

(** Where a claim is about which object a lookup hands out, the values of
    the dictionary are references into a store of set objects. *)
Abbreviation ref := positive (only parsing).
Abbreviation heap := (gmap positive (gset Node)) (only parsing).

(** The set a reference denotes. *)
Definition deref (h : heap) (r : ref) : gset Node := h !!! r.

(** [set()]: a new, empty set object. *)
Definition new_set (h : heap) : ref * heap :=
  let r := fresh (dom h) in (r, <[r := ∅]> h).

(** [r.add(x)]: the object is changed in place; every holder of [r] sees
    it. *)
Definition set_add (h : heap) (r : ref) (x : Node) : heap :=
  <[r := deref h r ∪ {[x]}]> h.

(** ** Sample inputs *)

(** Plain literals: rdflib gives a literal without datatype its lexical form
    as Python value. *)
Definition plain_literal (s : string) : Node := Literal s None None (Some (VStr s)).

(** A literal tagged [xsd:integer], with the [int] rdflib converts it to. *)
Definition integer_literal (z : Z) : Node :=
  Literal (pretty z) (Some "http://www.w3.org/2001/XMLSchema#integer") None
          (Some (VInt z)).

Definition ex (name : string) : Node := URIRef ("http://example.org/" +:+ name).

(** Two persons named "Alice" and "ALICE". *)
Definition names_graph : Graph :=
  [ (ex "e1", RDF_type, ex "Person");
    (ex "e1", ex "hasName", plain_literal "Alice");
    (ex "e2", RDF_type, ex "Person");
    (ex "e2", ex "hasName", plain_literal "ALICE") ].

Definition names_cache : Cache :=
  mkCache (generate_object_type_map names_graph)
          (generate_data_type_map names_graph).

Definition hasName (n : Node) : Assertion :=
  mkAssertion (ObjectTypeVariable (ex "Person")) (ex "hasName") (Resource n).

(** The graph [{(a,p,b), (a,p,c), (d,p,b)}]. *)
Definition edges_graph : Graph :=
  [ (ex "a", ex "p", ex "b");
    (ex "a", ex "p", ex "c");
    (ex "d", ex "p", ex "b") ].

(** ** Vocabulary of the proofs *)

(** [x] is in the set stored under [k]. *)
Definition holds {K A : Type} `{Countable K} `{Countable A}
    (d : DictDefault K (gset A)) (k : K) (x : A) : Prop :=
  ∃ S, items d !! k = Some S ∧ x ∈ S.

(** The entry of a predicate once the loop body has made sure there is one. *)
Definition entry_of (predicate_map : gmap Node PredicateEntry) (p : Node)
  : PredicateEntry :=
  default (mkPredicateEntry (DictDefault_init ∅) (DictDefault_init ∅))
          (predicate_map !! p).

(** The predicate map records the edge [s -p-> o] forwards, resp. backwards. *)
Definition records_fw (predicate_map : gmap Node PredicateEntry)
    (s p o : Node) : Prop :=
  holds (forwards (entry_of predicate_map p)) s o.
Definition records_bw (predicate_map : gmap Node PredicateEntry)
    (s p o : Node) : Prop :=
  holds (backwards (entry_of predicate_map p)) o s.

(** Every default of the predicate map is still the empty set. *)
Definition defaults_empty (predicate_map : gmap Node PredicateEntry) : Prop :=
  ∀ p, _default (forwards (entry_of predicate_map p)) = ∅
       ∧ _default (backwards (entry_of predicate_map p)) = ∅.

(** The datatype assigned to a node, for the nodes that are literals. *)
Definition dtype_of (o : Node) : option Node :=
  match o with
  | Literal _ datatype language _ => Some (literal_dtype datatype language)
  | _ => None
  end.

(** Two integer literals as objects. *)
Definition integers_graph : Graph :=
  [ (ex "a", ex "p", integer_literal 1);
    (ex "a", ex "q", integer_literal 2) ].

(** An integer literal beyond the range of binary64, and a date literal. *)
Definition huge_literal : Node := integer_literal (10 ^ 400).
Definition date_literal : Node :=
  Literal "2020-01-01" (Some "http://www.w3.org/2001/XMLSchema#date") None
          (Some (VDate (mkdate 2020 1 1))).

(** ** The label index *)

(** [generate_label_map]: the default is the empty [str]; a stored label is
    the object of a label triple, whatever node that is. *)
Definition label_step (label_map : DictDefault Node pyval) (t : Triple)
  : DictDefault Node pyval :=
  let '(e, _, l) := t in setitem label_map e (PyNode l).

Definition generate_label_map (g : Graph) : DictDefault Node pyval :=
  foldl label_step (DictDefault_init (PyPrim (VStr "")))
        (triples g None (Some RDFS_label) None).

(** The cache of a graph: its two type maps. *)
Definition cache_of (g : Graph) : Cache :=
  mkCache (generate_object_type_map g) (generate_data_type_map g).

(** A graph with a typed, an untyped and a blank-node subject, and labels. *)
Definition people_graph : Graph :=
  [ (ex "e1", RDF_type, ex "Student");
    (ex "e1", RDF_type, ex "Person");
    (ex "e1", RDFS_label, plain_literal "first");
    (ex "e2", ex "knows", ex "e1");
    (ex "e1", RDFS_label, plain_literal "second");
    (BNode "b0", ex "knows", ex "e1");
    (ex "e3", RDF_type, ex "Person");
    (ex "e3", ex "age", integer_literal 7) ].

(** ** More vocabulary of the proofs *)

(** No stored set is empty. *)
Definition nonempty_sets {K A : Type} `{Countable K} `{Countable A}
    (d : DictDefault K (gset A)) : Prop :=
  ∀ k S, items d !! k = Some S → ∃ x, x ∈ S.

(** What every entry of a built predicate map satisfies: untouched defaults,
    no empty stored set, at least one recorded edge. *)
Definition entries_in_use (predicate_map : gmap Node PredicateEntry) : Prop :=
  ∀ p entry, predicate_map !! p = Some entry →
    _default (forwards entry) = ∅ ∧ _default (backwards entry) = ∅
    ∧ nonempty_sets (forwards entry) ∧ nonempty_sets (backwards entry)
    ∧ ∃ s o, holds (forwards entry) s o.


(** Library routines that reject every text: enough to run the handlers of
    [cast_xsd] on a concrete input. *)
Definition rejecting_builtins : Builtins :=
  mkBuiltins (λ _, None) (λ _, None) (λ _, "") (λ _, "") (λ _ _, Raise ValueError).

(** A datetime literal and the date literal of the same day. *)
Definition datetime_literal : Node :=
  Literal "2020-01-01T10:30:00"
          (Some "http://www.w3.org/2001/XMLSchema#dateTime") None
          (Some (VDateTime (mkdatetime (mkdate 2020 1 1) 10 30 0 0 None))).

(** An ill-typed integer literal: rdflib keeps no Python value for it. *)
Definition illtyped_literal : Node :=
  Literal "abc" (Some "http://www.w3.org/2001/XMLSchema#integer") None None.

(** ** Ranges on the command line *)

(** [\d], on text of code points below 256: the only decimal digits there
    are the ASCII ones. *)
Definition is_digit (a : ascii) : bool :=
  let n := nat_of_ascii a in ((48 <=? n) && (n <=? 57))%nat.

(** The ways [\d+] can match at the start of a string, in the order the
    regex engine tries them (greedy, so the longest first): the text matched
    and the text left. *)
Fixpoint digit_runs (s : string) : list (string * string) :=
  match s with
  | String a s' =>
      if is_digit a
      then ((λ mr, (String a mr.1, mr.2)) <$> digit_runs s') ++ [(String a "", s')]
      else []
  | EmptyString => []
  end.

Definition newline : string := String (ascii_of_nat 10) "".

(** [$] without the MULTILINE flag: at the end of the string, and just before
    a newline that is its last character. *)
Definition at_end (s : string) : bool :=
  bool_decide (s = "") || bool_decide (s = newline).

(** The first alternative that succeeds. *)
Fixpoint first_match {A B : Type} (f : A → option B) (l : list A) : option B :=
  match l with
  | [] => None
  | x :: l' => match f x with
               | Some y => Some y
               | None => first_match f l'
               end
  end.

(** [(?:-(\d+))?$] at the rest of the string, the group taken: group 2. *)
Definition range_match_upper (rest : string) : option string :=
  match rest with
  | String a rest' =>
      if bool_decide (a = "-"%char)
      then first_match (λ mr, if at_end mr.2 then Some mr.1 else None)
                       (digit_runs rest')
      else None
  | EmptyString => None
  end.

(** [match(r'(\d+)(?:-(\d+))?$', text)]: groups 1 and 2 of the first path
    of the backtracking search that succeeds.  The optional group is tried
    before it is skipped. *)
Definition range_match (text : string) : option (string * option string) :=
  first_match (λ mr,
                 match range_match_upper mr.2 with
                 | Some g2 => Some (mr.1, Some g2)
                 | None => if at_end mr.2 then Some (mr.1, None) else None
                 end)
              (digit_runs text).

(** The number a text of decimal digits denotes. *)
Fixpoint digits_value_from (acc : Z) (s : string) : Z :=
  match s with
  | String a s' => digits_value_from (10 * acc + (Z.of_nat (nat_of_ascii a) - 48)) s'
  | EmptyString => acc
  end.
Definition digits_value (s : string) : Z := digits_value_from 0 s.

(** [int(s)] on a text of decimal digits.  [max_str_digits] is the limit of
    the interpreter on the length of such a text
    ([sys.get_int_max_str_digits()], 0 when there is none): beyond it, and
    beyond 640 digits, the conversion raises [ValueError], here [None]. *)
Definition int_of_digits (max_str_digits : nat) (s : string) : option Z :=
  let n := String.length s in
  if ((640 <? n) && (0 <? max_str_digits) && (max_str_digits <? n))%nat
  then None
  else Some (digits_value s).

(** The message of the [ArgumentTypeError]. *)
Definition range_message (text : string) : string :=
  "'" +:+ text +:+ "' is not a range of number. Expected forms like '0-5' or '2'.".

(** What a call of [integerRangeArg] ends with: the object
    [range(start, stop)], or one of the two exceptions. *)
Inductive range_outcome : Set :=
| ReturnRange (start stop : Z)
| RaiseArgumentTypeError (message : string)
| RaiseValueError.

Definition integerRangeArg (max_str_digits : nat) (text : string)
  : range_outcome :=
  match range_match text with
  | None =>
      RaiseArgumentTypeError (range_message text)
  | Some (group1, None) =>
      match int_of_digits max_str_digits group1 with
      | Some stop => ReturnRange 0 stop
      | None => RaiseValueError
      end
  | Some (group1, Some group2) =>
      match int_of_digits max_str_digits group1 with
      | Some start =>
          match int_of_digits max_str_digits group2 with
          | Some stop => ReturnRange start stop
          | None => RaiseValueError
          end
      | None => RaiseValueError
      end
  end.

(** The members of [range(start, stop)], in order. *)
Definition range_members (start stop : Z) : list Z := seqZ start (stop - start).

(** Proof vocabulary: texts of digits, and the longest run of digits at the
    start of a text. *)
Fixpoint all_digits (s : string) : bool :=
  match s with
  | String a s' => is_digit a && all_digits s'
  | EmptyString => true
  end.

Fixpoint span_digits (s : string) : string * string :=
  match s with
  | String a s' =>
      if is_digit a
      then (String a (span_digits s').1, (span_digits s').2)
      else ("", s)
  | EmptyString => ("", "")
  end.

Definition starts_with_digit (s : string) : bool :=
  match s with
  | String a _ => is_digit a
  | EmptyString => false
  end.

(** A text longer than the lowest limit the interpreter can be given. *)
Definition long_digits : string := String.concat "" (replicate 641 "7").

(** * Properties *)

(** ** DictDefault *)

Section DictDefault_facts.
Context {K V : Type} `{Countable K}.
Implicit Types (self : DictDefault K V) (ops : list (@dict_op K V)) (k : K).

Lemma getitem_stored self k v : items self !! k = Some v → getitem self k = v.
Proof. intros Hk. unfold getitem. by rewrite Hk. Qed.

Lemma getitem_absent self k : items self !! k = None → getitem self k = _default self.
Proof. intros Hk. unfold getitem, __missing__. by rewrite Hk. Qed.

Lemma contains_true self k : contains self k = true ↔ is_Some (items self !! k).
Proof.
  unfold contains, keys. rewrite bool_decide_eq_true. apply elem_of_dom.
Qed.

Lemma contains_false self k : contains self k = false ↔ items self !! k = None.
Proof.
  unfold contains, keys. rewrite bool_decide_eq_false, not_elem_of_dom. done.
Qed.

Lemma dict_run_cons self op ops :
  dict_run self (op :: ops) = dict_run (dict_step self op).1 ops.
Proof. reflexivity. Qed.

Lemma dict_run_default self ops : _default (dict_run self ops) = _default self.
Proof.
  revert self. induction ops as [|op ops IH]; intros self; [done|].
  rewrite dict_run_cons, IH. by destruct op.
Qed.

Lemma dict_run_items self ops k :
  items (dict_run self ops) !! k
  = match last_stored ops k with
    | Some v => Some v
    | None => items self !! k
    end.
Proof.
  revert self. induction ops as [|op ops IH]; intros self; [done|].
  rewrite dict_run_cons, IH. simpl.
  destruct (last_stored ops k) as [v|]; [done|].
  destruct op as [k' v'| |]; simpl; [|done..].
  destruct (decide (k' = k)) as [->|Hne].
  - apply lookup_insert_eq.
  - by apply lookup_insert_ne.
Qed.

Lemma last_stored_None ops k : last_stored ops k = None ↔ k ∉ stored_keys ops.
Proof.
  induction ops as [|op ops IH]; simpl.
  - split; [intros _; apply not_elem_of_nil | done].
  - destruct (last_stored ops k) as [v|] eqn:Hl.
    + split; [done|]. intros Hn. exfalso.
      assert (k ∉ stored_keys ops) as Hk.
      { intros Hin. apply Hn. destruct op; simpl; [right|..]; done. }
      apply IH in Hk. done.
    + destruct IH as [IH _]. specialize (IH eq_refl).
      destruct op as [k' v'| |]; simpl; [|done..].
      destruct (decide (k' = k)) as [->|Hne].
      * split; [done|]. intros Hn. exfalso. apply Hn. left.
      * split; [|done]. intros _. apply not_elem_of_cons. done.
Qed.

End DictDefault_facts.

(** C8. A lookup of a key that no operation ever stored returns the
    configured default and leaves the dictionary as it was: the key is not
    inserted, [key in d] stays false for it, and containment is true exactly
    for the keys that were stored; a lookup of a stored key returns the value
    last stored under it. *)
Theorem DictDefault_lookup_frame {K V : Type} `{Countable K}
    (d : V) (ops : list (@dict_op K V)) (k : K) :
  k ∉ stored_keys ops →
  let self := dict_run (DictDefault_init d) ops in
  dict_step self (OpGet k) = (self, ObsValue d)
  ∧ contains (dict_step self (OpGet k)).1 k = false
  ∧ (∀ k', contains (dict_step self (OpGet k)).1 k' = true ↔ k' ∈ stored_keys ops)
  ∧ (∀ k' v, last_stored ops k' = Some v →
       dict_step self (OpGet k') = (self, ObsValue v)).
Proof.
  intros Hk self.
  assert (∀ k', items self !! k' = last_stored ops k') as Hitems.
  { intros k'. unfold self. rewrite dict_run_items.
    destruct (last_stored ops k'); [done|]. apply lookup_empty. }
  assert (items self !! k = None) as Hnone.
  { rewrite Hitems. by apply last_stored_None. }
  split; [|split; [|split]].
  - simpl. rewrite (getitem_absent _ _ Hnone).
    unfold self. by rewrite dict_run_default.
  - simpl. by apply contains_false.
  - intros k'. simpl. rewrite contains_true, Hitems.
    rewrite <- not_eq_None_Some, last_stored_None.
    split; [apply dec_stable | by intros ? ?].
  - intros k' v Hv. simpl. f_equal. f_equal. apply getitem_stored.
    by rewrite Hitems.
Qed.

Lemma DictDefault_lookup_frame_witness :
  let ops := [OpSet "a" 1%nat; OpGet "b"; OpSet "c" 3%nat; OpContains "b"] in
  let self := dict_run (DictDefault_init 0%nat) ops in
  ("b" ∉ stored_keys ops)
  ∧ dict_step self (OpGet "b") = (self, ObsValue 0%nat)
  ∧ contains (dict_step self (OpGet "b")).1 "b" = false
  ∧ dict_step self (OpGet "c") = (self, ObsValue 3%nat).
Proof.
  intros ops self.
  assert ("b" ∉ stored_keys ops) as Hb.
  { apply (bool_decide_unpack _). vm_compute. exact I. }
  destruct (DictDefault_lookup_frame 0%nat ops "b" Hb) as (H1 & H2 & _ & H4).
  split; [exact Hb|]. split; [exact H1|]. split; [exact H2|].
  apply H4. reflexivity.
Defined.

(** ** The default is handed out by reference *)

Lemma deref_set_add (h : heap) (r : ref) (x : Node) :
  deref (set_add h r x) r = deref h r ∪ {[x]}.
Proof. unfold set_add, deref. by rewrite lookup_total_insert_eq. Qed.

(** C10. For two keys absent from the dictionary the two lookups return the
    very same reference, the one held in [_default]; so after [add] on the
    object returned for one missing key, the lookup of any missing key shows
    the added element. *)
Theorem DictDefault_default_by_reference {K : Type} `{Countable K}
    (self : DictDefault K ref) (h : heap) (k1 k2 : K) (x : Node) :
  k1 ∉ keys self → k2 ∉ keys self →
  getitem self k1 = getitem self k2
  ∧ getitem self k1 = _default self
  ∧ ∀ k, k ∉ keys self →
      x ∈ deref (set_add h (getitem self k1) x) (getitem self k).
Proof.
  unfold keys. intros H1 H2.
  apply not_elem_of_dom in H1, H2.
  rewrite (getitem_absent _ _ H1), (getitem_absent _ _ H2).
  split; [done|]. split; [done|].
  intros k Hk. apply not_elem_of_dom in Hk.
  rewrite (getitem_absent _ _ Hk), deref_set_add. set_solver.
Qed.

Lemma DictDefault_default_by_reference_witness :
  let '(r0, h0) := new_set ∅ in
  let '(r1, h1) := new_set h0 in
  let self := setitem (DictDefault_init r0) "stored" r1 in
  let h2 := set_add h1 (getitem self "k1") (URIRef "x") in
  ("k1" ∉ keys self) ∧ ("k2" ∉ keys self)
  ∧ getitem self "k1" = getitem self "k2"
  ∧ URIRef "x" ∈ deref h2 (getitem self "k2").
Proof.
  assert (∀ k : string, k ≠ "stored" →
            k ∉ keys (setitem (DictDefault_init (K:=string) (new_set ∅).1) "stored"
                        (new_set (new_set ∅).2).1)) as Hk.
  { intros k Hne. unfold keys. simpl. rewrite dom_insert_L. set_solver. }
  assert ("k1" ≠ "stored") as N1 by discriminate.
  assert ("k2" ≠ "stored") as N2 by discriminate.
  pose proof (DictDefault_default_by_reference _ (new_set (new_set ∅).2).2
                "k1" "k2" (URIRef "x") (Hk "k1" N1) (Hk "k2" N2))
    as (H1 & _ & H3).
  simpl.
  split; [apply Hk; done|]. split; [apply Hk; done|].
  split; [exact H1|]. apply H3, Hk; done.
Defined.

(** ** The equivalence test *)

Lemma bool_decide_eq_sym {A : Type} `{EqDecision A} (x y : A) :
  bool_decide (x = y) = bool_decide (y = x).
Proof. apply bool_decide_ext. split; congruence. Qed.

Lemma bool_decide_ne_sym {A : Type} `{EqDecision A} (x y : A) :
  bool_decide (x ≠ y) = bool_decide (y ≠ x).
Proof. apply bool_decide_ext. split; congruence. Qed.

Lemma isSameType_Resource (n : Node) (resourceB : Term) (cache : Cache) :
  isSameType (Resource n) resourceB cache = false.
Proof. reflexivity. Qed.

(** C9. [isEquivalent] gives the same answer when its two assertions are
    exchanged. *)
Theorem isEquivalent_symmetric (assertionA assertionB : Assertion) (cache : Cache) :
  isEquivalent assertionA assertionB cache
  = isEquivalent assertionB assertionA cache.
Proof.
  unfold isEquivalent.
  rewrite (bool_decide_eq_sym (Term_type (lhs assertionB))),
          (bool_decide_ne_sym (predicate assertionB)),
          (bool_decide_eq_sym (rhs assertionB)),
          (bool_decide_eq_sym (Term_type (rhs assertionB))).
  destruct (isinstance_ObjectTypeVariable (lhs assertionA)),
           (isinstance_ObjectTypeVariable (lhs assertionB)),
           (bool_decide (Term_type (lhs assertionA) = Term_type (lhs assertionB))),
           (bool_decide (predicate assertionA ≠ predicate assertionB)),
           (bool_decide (rhs assertionA = rhs assertionB)),
           (isinstance_TypeVariable (rhs assertionA)),
           (isinstance_TypeVariable (rhs assertionB)),
           (bool_decide (Term_type (rhs assertionA) = Term_type (rhs assertionB))),
           (isSameType (rhs assertionA) (rhs assertionB) cache),
           (isSameType (rhs assertionB) (rhs assertionA) cache);
    reflexivity.
Qed.

(** C2, as the code has it.  With the same typed subject variable and the
    same predicate, two concrete right-hand sides are equivalent exactly when
    they are the same resource: the test compares them as they are and never
    calls the normaliser. *)
Theorem isEquivalent_concrete_rhs (t p r1 r2 : Node) (cache : Cache) :
  isEquivalent (mkAssertion (ObjectTypeVariable t) p (Resource r1))
               (mkAssertion (ObjectTypeVariable t) p (Resource r2)) cache
  = bool_decide (r1 = r2).
Proof.
  unfold isEquivalent. simpl.
  rewrite (bool_decide_eq_true_2 (Some t = Some t)) by done.
  rewrite (bool_decide_eq_false_2 (p ≠ p)) by (intros Hp; by apply Hp).
  simpl. rewrite !orb_false_r.
  apply bool_decide_ext. split; congruence.
Qed.

(** C2, the scenario itself: "Alice" and "ALICE" both normalise to "alice"
    in the string family, whatever the library routines do elsewhere, and
    the two assertions are not equivalent. *)
Lemma isEquivalent_Alice_ALICE :
  (∀ B, cast_xsd B (PyNode (plain_literal "Alice")) (XSD "string")
        = Ok (PyPrim (VStr "alice")))
  ∧ (∀ B, cast_xsd B (PyNode (plain_literal "ALICE")) (XSD "string")
          = Ok (PyPrim (VStr "alice")))
  ∧ isEquivalent (hasName (plain_literal "Alice"))
                 (hasName (plain_literal "ALICE")) names_cache = false.
Proof.
  split; [|split].
  - intros B. vm_compute. reflexivity.
  - intros B. vm_compute. reflexivity.
  - vm_compute. reflexivity.
Qed.

(** ** The support counter *)

(** C3, as the code has it.  For a predicate that has an entry,
    [predicate_frequency] returns the number of subjects of the domain that
    are keys of the entry's forward map; that is at most the size of the
    domain, and 0 when the forward map has no key.  For a predicate without
    an entry the lookup in the plain dictionary raises [KeyError]. *)
Theorem predicate_frequency_indexed (predicate_map : gmap Node PredicateEntry)
    (assertion : Assertion) (assertion_domain : gset Node) :
  match predicate_map !! predicate assertion with
  | Some entry =>
      predicate_frequency predicate_map assertion assertion_domain
      = Ok (size (assertion_domain ∩ keys (forwards entry)))
      ∧ (size (assertion_domain ∩ keys (forwards entry))
         ≤ size assertion_domain)%nat
      ∧ (keys (forwards entry) = ∅ →
         predicate_frequency predicate_map assertion assertion_domain = Ok 0%nat)
  | None =>
      predicate_frequency predicate_map assertion assertion_domain
      = Raise KeyError
  end.
Proof.
  unfold predicate_frequency, dict_getitem.
  destruct (predicate_map !! predicate assertion) as [entry|]; simpl; [|done].
  split; [done|]. split.
  - apply subseteq_size. set_solver.
  - intros ->. f_equal. rewrite intersection_empty_r_L. apply size_empty.
Qed.

(** C3, the failing case: in the index of [{(a,p,b), (a,p,c), (d,p,b)}] the
    predicate [q] has no entry, and the support of an assertion on [q] is
    not 0 but a [KeyError]; on [p] it is 2. *)
Lemma predicate_frequency_unindexed :
  match generate_predicate_map edges_graph with
  | Ok predicate_map =>
      predicate_map !! ex "q" = None
      ∧ predicate_frequency predicate_map
          (mkAssertion (ObjectTypeVariable (ex "T")) (ex "q") (Resource (ex "b")))
          {[ex "a"; ex "d"; ex "x"]} = Raise KeyError
      ∧ predicate_frequency predicate_map
          (mkAssertion (ObjectTypeVariable (ex "T")) (ex "p") (Resource (ex "b")))
          {[ex "a"; ex "d"; ex "x"]} = Ok 2%nat
  | Raise _ => False
  end.
Proof. vm_compute. repeat split. Qed.

(** ** Dictionaries of sets *)

Section set_dictionaries.
Context {K A : Type} `{Countable K} `{Countable A}.
Implicit Types (d : DictDefault K (gset A)) (k : K) (x : A).

Lemma holds_getitem d k x : holds d k x → x ∈ getitem d k.
Proof. intros (S & Hk & Hx). by rewrite (getitem_stored _ _ _ Hk). Qed.

Lemma getitem_holds d k x : _default d = ∅ → x ∈ getitem d k → holds d k x.
Proof.
  intros Hd. unfold getitem, __missing__.
  destruct (items d !! k) as [S|] eqn:Hk.
  - intros Hx. by exists S.
  - rewrite Hd. set_solver.
Qed.

Lemma holds_init k x : ¬ holds (DictDefault_init (K:=K) (∅ : gset A)) k x.
Proof. intros (S & Hk & _). simpl in Hk. by rewrite lookup_empty in Hk. Qed.

Lemma not_in_keys d k : k ∉ keys d ↔ items d !! k = None.
Proof. unfold keys. apply not_elem_of_dom. Qed.

Lemma in_keys d k : k ∈ keys d ↔ is_Some (items d !! k).
Proof. unfold keys. apply elem_of_dom. Qed.

(** [d[k] = {x}] for a new key, [d[k].add(x)] for a stored one. *)
Lemma holds_store_or_add d k x k' x' :
  holds (if bool_decide (k ∉ keys d) then setitem d k {[x]} else add_at d k x) k' x'
  ↔ (k' = k ∧ x' = x) ∨ holds d k' x'.
Proof.
  unfold holds, add_at. case_bool_decide as Hk.
  - apply not_in_keys in Hk. simpl.
    destruct (decide (k' = k)) as [->|Hne].
    + rewrite lookup_insert_eq, Hk. split.
      * intros (S & [= <-] & Hx). left. set_solver.
      * intros [[_ ->]|(S & [=] & _)]. exists {[x]}. set_solver.
    + rewrite !lookup_insert_ne by done. naive_solver.
  - apply in_keys in Hk as [S0 HS0].
    rewrite HS0. simpl.
    destruct (decide (k' = k)) as [->|Hne].
    + rewrite lookup_insert_eq, HS0. split.
      * intros (S & [= <-] & Hx). apply elem_of_union in Hx as [Hx|Hx].
        -- right. by exists S0.
        -- left. set_solver.
      * intros [[_ ->]|(S & [= <-] & Hx)];
          (eexists; split; [done|set_solver]).
    + rewrite !lookup_insert_ne by done. naive_solver.
Qed.

Lemma default_store_or_add d k x :
  _default (if bool_decide (k ∉ keys d) then setitem d k {[x]} else add_at d k x)
  = _default d.
Proof.
  unfold add_at. case_bool_decide as Hk; [done|].
  apply in_keys in Hk as [S0 HS0]. by rewrite HS0.
Qed.

(** [d[k] = set()] for a new key, then [d[k].add(x)]. *)
Lemma holds_ensure_add d k x k' x' :
  holds (add_at (if bool_decide (k ∉ keys d) then setitem d k ∅ else d) k x) k' x'
  ↔ (k' = k ∧ x' = x) ∨ holds d k' x'.
Proof.
  unfold holds, add_at. case_bool_decide as Hk.
  - apply not_in_keys in Hk. simpl. rewrite lookup_insert_eq. simpl.
    destruct (decide (k' = k)) as [->|Hne].
    + rewrite lookup_insert_eq, Hk. split.
      * intros (S & [= <-] & Hx). left. set_solver.
      * intros [[_ ->]|(S & [=] & _)]. exists (∅ ∪ {[x]}). split; [done|].
        set_solver.
    + rewrite !lookup_insert_ne by done. naive_solver.
  - apply in_keys in Hk as [S0 HS0].
    rewrite HS0. simpl.
    destruct (decide (k' = k)) as [->|Hne].
    + rewrite lookup_insert_eq, HS0. split.
      * intros (S & [= <-] & Hx). apply elem_of_union in Hx as [Hx|Hx].
        -- right. by exists S0.
        -- left. set_solver.
      * intros [[_ ->]|(S & [= <-] & Hx)];
          (eexists; split; [done|set_solver]).
    + rewrite !lookup_insert_ne by done. naive_solver.
Qed.

Lemma default_ensure_add d k x :
  _default (add_at (if bool_decide (k ∉ keys d) then setitem d k ∅ else d) k x)
  = _default d.
Proof.
  unfold add_at. case_bool_decide as Hk.
  - simpl. by rewrite lookup_insert_eq.
  - apply in_keys in Hk as [S0 HS0]. by rewrite HS0.
Qed.

End set_dictionaries.

(** ** The predicate index *)

Lemma triples_all (g : Graph) : triples g None None None = g.
Proof.
  unfold triples. induction g as [|t g IH]; [done|].
  simpl. f_equal. exact IH.
Qed.

Lemma entry_of_insert predicate_map p p' entry :
  entry_of (<[p := entry]> predicate_map) p'
  = if decide (p = p') then entry else entry_of predicate_map p'.
Proof.
  unfold entry_of. destruct (decide (p = p')) as [->|Hne].
  - by rewrite lookup_insert_eq.
  - by rewrite lookup_insert_ne.
Qed.

(** One turn of the loop rewrites the entry of the triple's predicate, and
    never raises. *)
Lemma predicate_step_eq predicate_map s p o :
  predicate_step predicate_map (s, p, o)
  = Ok (<[p := mkPredicateEntry
          (if bool_decide (s ∉ keys (forwards (entry_of predicate_map p)))
           then setitem (forwards (entry_of predicate_map p)) s {[o]}
           else add_at (forwards (entry_of predicate_map p)) s o)
          (if bool_decide (o ∉ keys (backwards (entry_of predicate_map p)))
           then setitem (backwards (entry_of predicate_map p)) o {[s]}
           else add_at (backwards (entry_of predicate_map p)) o s)]>
        predicate_map).
Proof.
  unfold predicate_step, entry_of, dict_getitem.
  case_bool_decide as Hp.
  - apply not_elem_of_dom in Hp. rewrite Hp. simpl.
    rewrite !lookup_insert_eq. simpl. rewrite !lookup_insert_eq. simpl.
    by rewrite !insert_insert_eq.
  - apply elem_of_dom in Hp as [entry Hp]. rewrite Hp. simpl.
    rewrite !lookup_insert_eq. simpl.
    by rewrite !insert_insert_eq.
Qed.

Lemma predicate_step_records predicate_map s p o :
  ∃ predicate_map',
    predicate_step predicate_map (s, p, o) = Ok predicate_map'
    ∧ (∀ s' p' o', records_fw predicate_map' s' p' o'
         ↔ (s', p', o') = (s, p, o) ∨ records_fw predicate_map s' p' o')
    ∧ (∀ s' p' o', records_bw predicate_map' s' p' o'
         ↔ (s', p', o') = (s, p, o) ∨ records_bw predicate_map s' p' o')
    ∧ (defaults_empty predicate_map → defaults_empty predicate_map').
Proof.
  eexists. split; [apply predicate_step_eq|].
  unfold records_fw, records_bw, defaults_empty.
  split; [|split].
  - intros s' p' o'. rewrite entry_of_insert.
    destruct (decide (p = p')) as [<-|Hne]; simpl.
    + rewrite holds_store_or_add. naive_solver.
    + naive_solver.
  - intros s' p' o'. rewrite entry_of_insert.
    destruct (decide (p = p')) as [<-|Hne]; simpl.
    + rewrite holds_store_or_add. naive_solver.
    + naive_solver.
  - intros Hd p'. rewrite entry_of_insert.
    destruct (decide (p = p')) as [<-|Hne]; simpl; [|apply Hd].
    rewrite !default_store_or_add. apply Hd.
Qed.

Lemma for_each_predicate_step (l : list Triple) predicate_map :
  ∃ predicate_map',
    for_each predicate_step predicate_map l = Ok predicate_map'
    ∧ (∀ s p o, records_fw predicate_map' s p o
         ↔ (s, p, o) ∈ l ∨ records_fw predicate_map s p o)
    ∧ (∀ s p o, records_bw predicate_map' s p o
         ↔ (s, p, o) ∈ l ∨ records_bw predicate_map s p o)
    ∧ (defaults_empty predicate_map → defaults_empty predicate_map').
Proof.
  revert predicate_map. induction l as [|[[s p] o] l IH]; intros predicate_map.
  - exists predicate_map. split; [done|].
    split; [|split]; [intros s p o..|done]; rewrite elem_of_nil; naive_solver.
  - destruct (predicate_step_records predicate_map s p o)
      as (pm1 & Hstep & Hfw & Hbw & Hd).
    destruct (IH pm1) as (pm2 & Hrun & Hfw2 & Hbw2 & Hd2).
    exists pm2. cbn [for_each]. rewrite Hstep. simpl.
    split; [done|].
    split; [|split]; [intros s' p' o'..|by auto].
    + rewrite Hfw2, Hfw, elem_of_cons. naive_solver.
    + rewrite Hbw2, Hbw, elem_of_cons. naive_solver.
Qed.

Lemma records_empty s p o :
  ¬ records_fw ∅ s p o ∧ ¬ records_bw ∅ s p o ∧ defaults_empty ∅.
Proof.
  unfold records_fw, records_bw, defaults_empty, entry_of.
  rewrite lookup_empty. simpl.
  split; [apply holds_init|]. split; [apply holds_init|]. done.
Qed.

Lemma records_fw_entry predicate_map s p o :
  records_fw predicate_map s p o →
  ∃ entry, predicate_map !! p = Some entry ∧ entry_of predicate_map p = entry.
Proof.
  unfold records_fw, entry_of.
  destruct (predicate_map !! p) as [entry|]; simpl; [by exists entry|].
  intros Hh. by apply holds_init in Hh.
Qed.

(** C6. For every triple [(s, p, o)] of the graph the predicate map is
    built without an exception, has an entry for [p], and there [o] is in
    [forwards[s]] and [s] in [backwards[o]].  The two sets hold every object
    recorded for [s], resp. every subject recorded for [o], and nothing
    else: earlier members are kept, not overwritten. *)
Theorem generate_predicate_map_consistent (g : Graph) (s p o : Node) :
  (s, p, o) ∈ g →
  ∃ predicate_map entry,
    generate_predicate_map g = Ok predicate_map
    ∧ predicate_map !! p = Some entry
    ∧ o ∈ getitem (forwards entry) s
    ∧ s ∈ getitem (backwards entry) o
    ∧ (∀ o', o' ∈ getitem (forwards entry) s ↔ (s, p, o') ∈ g)
    ∧ (∀ s', s' ∈ getitem (backwards entry) o ↔ (s', p, o) ∈ g).
Proof.
  intros Hin. unfold generate_predicate_map. rewrite triples_all.
  destruct (for_each_predicate_step g ∅) as (pm & Hrun & Hfw & Hbw & Hd).
  assert (∀ s' p' o', records_fw pm s' p' o' ↔ (s', p', o') ∈ g) as Hfw'.
  { intros s' p' o'. rewrite Hfw.
    pose proof (records_empty s' p' o'). naive_solver. }
  assert (∀ s' p' o', records_bw pm s' p' o' ↔ (s', p', o') ∈ g) as Hbw'.
  { intros s' p' o'. rewrite Hbw.
    pose proof (records_empty s' p' o'). naive_solver. }
  assert (defaults_empty pm) as Hd'.
  { apply Hd, (records_empty s p o). }
  destruct (records_fw_entry pm s p o) as (entry & Hentry & Heq);
    [by apply Hfw'|].
  specialize (Hd' p). rewrite Heq in Hd'. destruct Hd' as [Hdf Hdb].
  exists pm, entry. split; [done|]. split; [done|].
  assert (∀ o', o' ∈ getitem (forwards entry) s ↔ (s, p, o') ∈ g) as Hf.
  { intros o'. rewrite <- Hfw'. unfold records_fw. rewrite Heq.
    split; [by apply getitem_holds | apply holds_getitem]. }
  assert (∀ s', s' ∈ getitem (backwards entry) o ↔ (s', p, o) ∈ g) as Hb.
  { intros s'. rewrite <- Hbw'. unfold records_bw. rewrite Heq.
    split; [by apply getitem_holds | apply holds_getitem]. }
  split; [by apply Hf|]. split; [by apply Hb|]. done.
Qed.

Lemma generate_predicate_map_consistent_witness :
  (ex "a", ex "p", ex "c") ∈ edges_graph
  ∧ ∃ predicate_map entry,
      generate_predicate_map edges_graph = Ok predicate_map
      ∧ predicate_map !! ex "p" = Some entry
      ∧ ex "c" ∈ getitem (forwards entry) (ex "a")
      ∧ ex "a" ∈ getitem (backwards entry) (ex "c").
Proof.
  assert ((ex "a", ex "p", ex "c") ∈ edges_graph) as Hin.
  { unfold edges_graph. apply elem_of_cons. right. apply elem_of_cons. by left. }
  split; [exact Hin|].
  destruct (generate_predicate_map_consistent edges_graph _ _ _ Hin)
    as (pm & entry & H1 & H2 & H3 & H4 & _).
  exists pm, entry. exact (conj H1 (conj H2 (conj H3 H4))).
Defined.

(** ** The entity type index *)

Lemma object_type_inner_holds e (m : TypeMap (gset Node)) ctype :
  (∀ e' c', holds (object_to_type (object_type_inner e m ctype)) e' c'
     ↔ (e' = e ∧ c' = ctype) ∨ holds (object_to_type m) e' c')
  ∧ (∀ c' e', holds (type_to_object (object_type_inner e m ctype)) c' e'
       ↔ (e' = e ∧ c' = ctype) ∨ holds (type_to_object m) c' e')
  ∧ _default (object_to_type (object_type_inner e m ctype))
    = _default (object_to_type m)
  ∧ _default (type_to_object (object_type_inner e m ctype))
    = _default (type_to_object m).
Proof.
  unfold object_type_inner. simpl.
  split; [|split; [|split]].
  - intros e' c'. apply holds_ensure_add.
  - intros c' e'. rewrite holds_ensure_add. naive_solver.
  - apply default_ensure_add.
  - apply default_ensure_add.
Qed.

Lemma foldl_object_type_inner e (l : list Node) (m : TypeMap (gset Node)) :
  (∀ e' c', holds (object_to_type (foldl (object_type_inner e) m l)) e' c'
     ↔ (e' = e ∧ c' ∈ l) ∨ holds (object_to_type m) e' c')
  ∧ (∀ c' e', holds (type_to_object (foldl (object_type_inner e) m l)) c' e'
       ↔ (e' = e ∧ c' ∈ l) ∨ holds (type_to_object m) c' e')
  ∧ _default (object_to_type (foldl (object_type_inner e) m l))
    = _default (object_to_type m)
  ∧ _default (type_to_object (foldl (object_type_inner e) m l))
    = _default (type_to_object m).
Proof.
  revert m. induction l as [|c l IH]; intros m.
  - simpl. split; [|split; [|done]]; intros ? ?; rewrite elem_of_nil; naive_solver.
  - cbn [foldl].
    destruct (IH (object_type_inner e m c)) as (H1 & H2 & H3 & H4).
    destruct (object_type_inner_holds e m c) as (I1 & I2 & I3 & I4).
    split; [|split; [|split]].
    + intros e' c'. rewrite H1, I1, elem_of_cons. naive_solver.
    + intros c' e'. rewrite H2, I2, elem_of_cons. naive_solver.
    + by rewrite H3.
    + by rewrite H4.
Qed.

Lemma foldl_object_type_step g (l : list Node) (m : TypeMap (gset Node)) :
  (∀ e' c', holds (object_to_type (foldl (object_type_step g) m l)) e' c'
     ↔ (is_URIRef e' = true ∧ e' ∈ l ∧ c' ∈ ctypes_of g e')
       ∨ holds (object_to_type m) e' c')
  ∧ (∀ c' e', holds (type_to_object (foldl (object_type_step g) m l)) c' e'
       ↔ (is_URIRef e' = true ∧ e' ∈ l ∧ c' ∈ ctypes_of g e')
         ∨ holds (type_to_object m) c' e')
  ∧ _default (object_to_type (foldl (object_type_step g) m l))
    = _default (object_to_type m)
  ∧ _default (type_to_object (foldl (object_type_step g) m l))
    = _default (type_to_object m).
Proof.
  revert m. induction l as [|e l IH]; intros m.
  - simpl. split; [|split; [|done]]; intros ? ?; rewrite elem_of_nil; naive_solver.
  - cbn [foldl].
    destruct (IH (object_type_step g m e)) as (H1 & H2 & H3 & H4).
    unfold object_type_step in *.
    destruct (is_URIRef e) eqn:He; simpl in *.
    + destruct (foldl_object_type_inner e (ctypes_of g e) m) as (I1 & I2 & I3 & I4).
      split; [|split; [|split]].
      * intros e' c'. rewrite H1, I1, elem_of_cons. naive_solver.
      * intros c' e'. rewrite H2, I2, elem_of_cons. naive_solver.
      * by rewrite H3.
      * by rewrite H4.
    + split; [|split; [|done]].
      * intros e' c'. rewrite H1, elem_of_cons. split.
        -- intros [(? & ? & ?)|?]; [left|right]; auto.
        -- intros [(Hu & [->|?] & ?)|?]; [congruence|left|right]; auto.
      * intros c' e'. rewrite H2, elem_of_cons. split.
        -- intros [(? & ? & ?)|?]; [left|right]; auto.
        -- intros [(Hu & [->|?] & ?)|?]; [congruence|left|right]; auto.
Qed.

(** What the finished index records, in both directions, and that its two
    defaults were never touched. *)
Lemma generate_object_type_map_holds (g : Graph) :
  (∀ e c, holds (object_to_type (generate_object_type_map g)) e c
     ↔ is_URIRef e = true ∧ e ∈ subjects g None None ∧ c ∈ ctypes_of g e)
  ∧ (∀ c e, holds (type_to_object (generate_object_type_map g)) c e
       ↔ is_URIRef e = true ∧ e ∈ subjects g None None ∧ c ∈ ctypes_of g e)
  ∧ _default (object_to_type (generate_object_type_map g)) = ∅
  ∧ _default (type_to_object (generate_object_type_map g)) = ∅.
Proof.
  unfold generate_object_type_map.
  destruct (foldl_object_type_step g (subjects g None None)
              (mkTypeMap (DictDefault_init ∅) (DictDefault_init ∅)))
    as (H1 & H2 & H3 & H4).
  split; [|split; [|done]].
  - intros e c. rewrite H1. simpl.
    pose proof (holds_init (K:=Node) (A:=Node) e c). naive_solver.
  - intros c e. rewrite H2. simpl.
    pose proof (holds_init (K:=Node) (A:=Node) c e). naive_solver.
Qed.

Lemma ctypes_of_asserted g e :
  ctypes_of g e
  = match objects g (Some e) (Some RDF_type) with
    | [] => [RDFS_Class]
    | asserted => asserted
    end.
Proof.
  unfold ctypes_of. by destruct (objects g (Some e) (Some RDF_type)).
Qed.

(** C7, as the code has it.  Every subject that is a [URIRef] is mapped to
    a non-empty set of classes: exactly the generic class when no class is
    asserted for it, exactly the asserted classes otherwise; and it is a
    member of the bucket of each of its classes. *)
Theorem generate_object_type_map_entities (g : Graph) (e : Node) :
  is_URIRef e = true → e ∈ subjects g None None →
  let m := generate_object_type_map g in
  getitem (object_to_type m) e
  = match objects g (Some e) (Some RDF_type) with
    | [] => {[RDFS_Class]}
    | asserted => list_to_set asserted
    end
  ∧ (∃ c, c ∈ getitem (object_to_type m) e)
  ∧ (∀ c, c ∈ getitem (object_to_type m) e → e ∈ getitem (type_to_object m) c).
Proof.
  intros He Hsubj m.
  destruct (generate_object_type_map_holds g) as (H1 & H2 & D1 & D2).
  fold m in H1, H2, D1, D2.
  assert (∀ c, c ∈ getitem (object_to_type m) e ↔ c ∈ ctypes_of g e) as Hc.
  { intros c. split.
    - intros Hin. apply getitem_holds in Hin; [|done]. by apply H1 in Hin as (_ & _ & ?).
    - intros Hin. apply holds_getitem, H1. done. }
  split; [|split].
  - apply set_eq. intros c. rewrite Hc, ctypes_of_asserted.
    destruct (objects g (Some e) (Some RDF_type)) as [|c0 l].
    + set_solver.
    + by rewrite elem_of_list_to_set.
  - rewrite ctypes_of_asserted in Hc.
    destruct (objects g (Some e) (Some RDF_type)) as [|c0 l].
    + exists RDFS_Class. apply Hc. set_solver.
    + exists c0. apply Hc. set_solver.
  - intros c Hin. apply Hc in Hin. apply holds_getitem, H2. done.
Qed.

Lemma generate_object_type_map_entities_witness :
  let m := generate_object_type_map names_graph in
  is_URIRef (ex "e1") = true
  ∧ ex "e1" ∈ subjects names_graph None None
  ∧ getitem (object_to_type m) (ex "e1") = list_to_set [ex "Person"]
  ∧ (∀ c, c ∈ getitem (object_to_type m) (ex "e1") →
          ex "e1" ∈ getitem (type_to_object m) c).
Proof.
  intros m.
  assert (ex "e1" ∈ subjects names_graph None None) as Hs.
  { vm_compute. apply elem_of_cons. by left. }
  destruct (generate_object_type_map_entities names_graph (ex "e1") eq_refl Hs)
    as (H1 & _ & H3).
  split; [reflexivity|]. split; [exact Hs|]. split; [|exact H3].
  unfold m. rewrite H1.
  replace (objects names_graph (Some (ex "e1")) (Some RDF_type))
    with [ex "Person"] by (vm_compute; reflexivity).
  reflexivity.
Defined.

(** C7, the failing case: a blank node is an entity and not a literal, but
    the builder only takes [URIRef] subjects; the blank-node subject of this
    graph ends with no class at all. *)
Lemma generate_object_type_map_blank_node :
  let g := [(BNode "b0", ex "knows", ex "e1")] in
  is_Literal (BNode "b0") = false
  ∧ BNode "b0" ∈ subjects g None None
  ∧ getitem (object_to_type (generate_object_type_map g)) (BNode "b0") = ∅.
Proof.
  split; [reflexivity|]. split.
  - vm_compute. apply elem_of_cons. by left.
  - vm_compute. reflexivity.
Qed.

(** ** The literal datatype index *)

(** The test [dtype not in data_type_map.keys()] looks into the outer
    dictionary, whose keys are two plain strings: it holds for every
    datatype. *)
Lemma in_TypeMap_keys_false (dtype : Node) : in_TypeMap_keys dtype = false.
Proof. reflexivity. Qed.

Lemma data_type_step_literal (m : TypeMap (option Node)) lexical datatype language value :
  let o := Literal lexical datatype language value in
  let dtype := literal_dtype datatype language in
  data_type_step m o
  = mkTypeMap (setitem (object_to_type m) o (Some dtype))
              (mkDictDefault (_default (type_to_object m))
                 (<[dtype := ∅ ∪ {[o]}]> (items (type_to_object m)))).
Proof.
  intros o dtype. unfold data_type_step. simpl. fold dtype.
  unfold add_at, setitem. simpl. rewrite lookup_insert_eq. simpl.
  by rewrite insert_insert_eq.
Qed.

Lemma data_type_step_other (m : TypeMap (option Node)) x o :
  o ≠ x →
  items (object_to_type (data_type_step m x)) !! o = items (object_to_type m) !! o.
Proof.
  intros Hne. destruct x as [i|i|lx dx gx vx]; [done..|].
  simpl. by rewrite lookup_insert_ne.
Qed.

Lemma data_type_step_same (m : TypeMap (option Node)) o :
  is_Literal o = true →
  items (object_to_type (data_type_step m o)) !! o = Some (dtype_of o).
Proof.
  destruct o as [i|i|lx dx gx vx]; [done..|]. intros _.
  simpl. by rewrite lookup_insert_eq.
Qed.

Lemma foldl_data_type_step_other (l : list Node) (m : TypeMap (option Node)) o :
  o ∉ l →
  items (object_to_type (foldl data_type_step m l)) !! o
  = items (object_to_type m) !! o.
Proof.
  revert m. induction l as [|x l IH]; intros m Hnin; [done|].
  apply not_elem_of_cons in Hnin as [Hne Hnin].
  cbn [foldl]. rewrite IH by done. by apply data_type_step_other.
Qed.

(** The object-to-type direction is right: every literal among the objects
    is mapped to its datatype. *)
Lemma foldl_data_type_step_object_to_type (l : list Node) (m : TypeMap (option Node)) o :
  o ∈ l → is_Literal o = true →
  items (object_to_type (foldl data_type_step m l)) !! o = Some (dtype_of o).
Proof.
  revert m. induction l as [|x l IH]; intros m Hin Hlit.
  - by apply elem_of_nil in Hin.
  - cbn [foldl]. destruct (decide (o ∈ l)) as [Hl|Hl]; [by apply IH|].
    apply elem_of_cons in Hin as [->|Hin]; [|done].
    rewrite foldl_data_type_step_other by done.
    by apply data_type_step_same.
Qed.

Lemma generate_data_type_map_object_to_type (g : Graph) (o : Node) :
  o ∈ objects g None None → is_Literal o = true →
  getitem (object_to_type (generate_data_type_map g)) o = dtype_of o.
Proof.
  intros Hin Hlit. apply getitem_stored.
  unfold generate_data_type_map.
  by apply foldl_data_type_step_object_to_type.
Qed.

(** The type-to-object direction: a bucket is emptied each time a literal of
    its datatype is met, so that no bucket ever holds two literals. *)
Lemma foldl_data_type_step_buckets (l : list Node) (m : TypeMap (option Node)) :
  (∀ k S, items (type_to_object m) !! k = Some S → (size S ≤ 1)%nat) →
  _default (type_to_object (foldl data_type_step m l)) = _default (type_to_object m)
  ∧ ∀ k S, items (type_to_object (foldl data_type_step m l)) !! k = Some S →
           (size S ≤ 1)%nat.
Proof.
  revert m. induction l as [|x l IH]; intros m Hm; [done|].
  cbn [foldl].
  destruct x as [i|i|lx dx gx vx]; [by apply IH..|].
  rewrite data_type_step_literal.
  match goal with |- context [foldl data_type_step ?m' l] =>
    destruct (IH m') as [IH1 IH2] end.
  - simpl. intros k S.
    destruct (decide (literal_dtype dx gx = k)) as [->|Hne].
    + rewrite lookup_insert_eq. intros [= <-].
      rewrite (left_id_L ∅ (∪)), size_singleton. lia.
    + rewrite lookup_insert_ne by done. apply Hm.
  - split; [by rewrite IH1|exact IH2].
Qed.

Lemma generate_data_type_map_buckets (g : Graph) (dtype : Node) :
  (size (getitem (type_to_object (generate_data_type_map g)) dtype) ≤ 1)%nat.
Proof.
  unfold generate_data_type_map.
  match goal with |- context [foldl data_type_step ?m' ?l] =>
    destruct (foldl_data_type_step_buckets l m') as [Hd Hb] end.
  { simpl. intros k S. by rewrite lookup_empty. }
  unfold getitem, __missing__.
  destruct (items _ !! dtype) as [S|] eqn:Hk.
  - by apply (Hb dtype).
  - rewrite Hd. unfold DictDefault_init. cbn [_default type_to_object].
    rewrite size_empty. lia.
Qed.

(** C1, at the failing input: two literals of datatype [xsd:integer] are
    objects of the graph.  Both are mapped to [xsd:integer], but the bucket
    of [xsd:integer] holds the second only; the first is in no bucket. *)
Theorem generate_data_type_map_drops_literal :
  let m := generate_data_type_map integers_graph in
  integer_literal 1 ∈ objects integers_graph None None
  ∧ getitem (object_to_type m) (integer_literal 1) = Some (XSD "integer")
  ∧ getitem (object_to_type m) (integer_literal 2) = Some (XSD "integer")
  ∧ elements (getitem (type_to_object m) (XSD "integer")) = [integer_literal 2]
  ∧ (integer_literal 1 ∉ getitem (type_to_object m) (XSD "integer")).
Proof.
  intros m.
  assert (elements (getitem (type_to_object m) (XSD "integer"))
          = [integer_literal 2]) as Hel by (vm_compute; reflexivity).
  split; [vm_compute; apply elem_of_cons; by left|].
  split; [vm_compute; reflexivity|].
  split; [vm_compute; reflexivity|].
  split; [exact Hel|].
  rewrite <- elem_of_elements, Hel, list_elem_of_singleton.
  vm_compute. discriminate.
Qed.

(** ** The value normaliser *)

(** What the handlers do catch: no [ValueError] leaves [cast_xsd]. *)
Lemma except_ValueError_not_ValueError {A} (body : result A) (kept : A) :
  except_ValueError body kept ≠ Raise ValueError.
Proof. by destruct body as [a|[]]. Qed.

Lemma cast_xsd_not_ValueError (B : Builtins) (node : pyval) (dtype : Node) :
  cast_xsd B node dtype ≠ Raise ValueError.
Proof.
  unfold cast_xsd.
  destruct (toPython node) as [node1|e] eqn:Hp; simpl.
  - repeat case_bool_decide;
      first [apply except_ValueError_not_ValueError | discriminate].
  - destruct node as [[i|i|l d g [v|]]|v]; simpl in Hp; congruence.
Qed.

(** In the string family, and outside the four families, a graph node is
    always normalised without an exception. *)
Lemma toPython_node (n : Node) : ∃ v, toPython (PyNode n) = Ok v.
Proof. destruct n as [i|i|l d g [v|]]; simpl; eauto. Qed.

Lemma cast_xsd_string_family (B : Builtins) (n : Node) (dtype : Node) :
  dtype ∉ XSD_NUMERIC → dtype ∉ XSD_DATETIME → dtype ∉ XSD_DATEFRAG →
  ∃ v, cast_xsd B (PyNode n) dtype = Ok v.
Proof.
  intros H1 H2 H3. unfold cast_xsd.
  destruct (toPython_node n) as [v ->]. simpl.
  rewrite !bool_decide_eq_false_2 by done.
  case_bool_decide; simpl; eauto.
Qed.

(** C4, at the failing inputs.  The handlers catch [ValueError] only.  An
    integer literal too large for a float makes [float] raise
    [OverflowError], and a date value makes it raise [TypeError]; both leave
    [cast_xsd], whatever the library routines do elsewhere. *)
Theorem cast_xsd_exception_escapes (B : Builtins) :
  cast_xsd B (PyNode huge_literal) (XSD "integer") = Raise OverflowError
  ∧ cast_xsd B (PyNode date_literal) (XSD "integer") = Raise TypeError.
Proof. split; vm_compute; reflexivity. Qed.

(** A result of [cast_xsd] that is still a graph node is the argument
    itself. *)
Lemma cast_xsd_node_result (B : Builtins) (node : pyval) (dtype n : Node) :
  cast_xsd B node dtype = Ok (PyNode n) → node = PyNode n.
Proof.
  unfold cast_xsd.
  destruct node as [[i|i|l d g [v|]]|v]; simpl; try discriminate;
    repeat case_bool_decide; simpl;
    repeat (match goal with
            | |- context [float_of_str B ?s] => destruct (float_of_str B s)
            | |- context [fromisoformat_str B ?s] => destruct (fromisoformat_str B s)
            | |- context [gFrag_to_days B ?s ?d] => destruct (gFrag_to_days B s d) as [?|[]]
            | |- context [float_of_int ?z] => destruct (float_of_int z) as [?|[]]
            | v : pyprim |- _ => destruct v
            end; simpl);
    congruence.
Qed.

(** C5, as the code has it.  [cast_xsd] starts with [node.toPython()]: it
    takes a graph node and returns a Python value.  Applied to its own
    result it returns that result again when the result is a graph node,
    and raises [AttributeError] when the result is a converted value. *)
Theorem cast_xsd_twice (B : Builtins) (node : pyval) (dtype : Node) :
  (r ← cast_xsd B node dtype; cast_xsd B r dtype)
  = match cast_xsd B node dtype with
    | Ok (PyNode n) => Ok (PyNode n)
    | Ok (PyPrim _) => Raise AttributeError
    | Raise e => Raise e
    end.
Proof.
  destruct (cast_xsd B node dtype) as [[n|v]|e] eqn:Hc; simpl; [|done..].
  pose proof (cast_xsd_node_result _ _ _ _ Hc) as ->. exact Hc.
Qed.

(** C5, the failing case: the literal "Alice" normalises to the Python
    string "alice", and normalising that again is an exception, not
    "alice". *)
Lemma cast_xsd_twice_Alice :
  (∀ B, cast_xsd B (PyNode (plain_literal "Alice")) (XSD "string")
        = Ok (PyPrim (VStr "alice")))
  ∧ (∀ B, (r ← cast_xsd B (PyNode (plain_literal "Alice")) (XSD "string");
           cast_xsd B r (XSD "string")) = Raise AttributeError).
Proof. split; intros B; vm_compute; reflexivity. Qed.

(** * Further properties of the code *)

(** ** DictDefault: stores and lookups *)

(** X1. A store followed by lookups: the stored key reads back the stored
    value and is contained; every other key reads and is contained as
    before; the default is not changed by a store. *)
Theorem DictDefault_store_lookup {K V : Type} `{Countable K}
    (self : DictDefault K V) (k k' : K) (v : V) :
  getitem (setitem self k v) k = v
  ∧ contains (setitem self k v) k = true
  ∧ _default (setitem self k v) = _default self
  ∧ (k' ≠ k →
     getitem (setitem self k v) k' = getitem self k'
     ∧ contains (setitem self k v) k' = contains self k').
Proof.
  split; [|split; [|split]].
  - apply getitem_stored. simpl. apply lookup_insert_eq.
  - apply contains_true. simpl. rewrite lookup_insert_eq. eauto.
  - done.
  - intros Hne. split.
    + unfold getitem, __missing__. simpl. by rewrite lookup_insert_ne.
    + unfold contains, keys. simpl. apply bool_decide_ext.
      rewrite dom_insert. set_solver.
Qed.

(** ** The label index *)

Lemma foldl_label_step (l : list Triple) (label_map : DictDefault Node pyval) e :
  items (foldl label_step label_map l) !! e
  = match last (object_of <$> List.filter (λ t, bool_decide (e = subject_of t)) l) with
    | Some o => Some (PyNode o)
    | None => items label_map !! e
    end
  ∧ _default (foldl label_step label_map l) = _default label_map.
Proof.
  revert label_map. induction l as [|[[s p] o] l IH]; intros label_map; [done|].
  cbn [foldl]. destruct (IH (label_step label_map (s, p, o))) as [IH1 IH2].
  rewrite IH1, IH2. split; [|done].
  cbn [List.filter subject_of fst snd].
  case_bool_decide as Hs.
  - subst s. rewrite fmap_cons, last_cons. cbn [object_of snd].
    destruct (last _); [done|]. simpl. apply lookup_insert_eq.
  - destruct (last _); [done|]. simpl. by rewrite lookup_insert_ne.
Qed.

Lemma filter_filter {A : Type} (f g : A → bool) (l : list A) :
  List.filter f (List.filter g l) = List.filter (λ x, g x && f x) l.
Proof.
  induction l as [|a l IH]; [done|]. simpl.
  destruct (g a); simpl; [|done]. destruct (f a); by rewrite IH.
Qed.

Lemma filter_filter_triples (g : Graph) e p :
  List.filter (λ t, bool_decide (e = subject_of t)) (triples g None (Some p) None)
  = triples g (Some e) (Some p) None.
Proof.
  unfold triples. rewrite filter_filter. apply List.filter_ext.
  intros t. simpl.
  by destruct (bool_decide (p = predicate_of t)), (bool_decide (e = subject_of t)).
Qed.

(** X2. The label of an entity is the object of its last label triple in
    iteration order (a later label overwrites an earlier one); an entity
    without a label triple reads the empty string and is not a key. *)
Theorem generate_label_map_last_wins (g : Graph) (e : Node) :
  getitem (generate_label_map g) e
  = match last (objects g (Some e) (Some RDFS_label)) with
    | Some l => PyNode l
    | None => PyPrim (VStr "")
    end
  ∧ (contains (generate_label_map g) e = true
     ↔ e ∈ subjects g (Some RDFS_label) None).
Proof.
  unfold generate_label_map, objects.
  destruct (foldl_label_step (triples g None (Some RDFS_label) None)
              (DictDefault_init (PyPrim (VStr ""))) e) as [Hi Hd].
  rewrite filter_filter_triples in Hi.
  split.
  - unfold getitem, __missing__. rewrite Hi, Hd.
    destruct (last _); [done|]. simpl. by rewrite lookup_empty.
  - rewrite contains_true, Hi. unfold subjects.
    rewrite <- filter_filter_triples. clear Hi Hd.
    generalize (triples g None (Some RDFS_label) None). intros l.
    induction l as [|t l IH].
    + simpl. rewrite lookup_empty, elem_of_nil. split; [by intros [? ?]|done].
    + cbn [List.filter]. rewrite fmap_cons, elem_of_cons.
      case_bool_decide as Hs.
      * split; [by left|]. intros _. rewrite fmap_cons, last_cons.
        destruct (last (object_of <$> _)) as [y|]; cbn; eexists; reflexivity.
      * rewrite IH. split; [by right|]. by intros [?|?].
Qed.

(** ** The literal datatype index, in full *)

Lemma data_type_step_nonliteral (m : TypeMap (option Node)) x o :
  is_Literal o = false →
  items (object_to_type (data_type_step m x)) !! o = items (object_to_type m) !! o.
Proof.
  intros Ho. destruct (decide (o = x)) as [->|Hne].
  - by destruct x.
  - by apply data_type_step_other.
Qed.

Lemma foldl_data_type_step_nonliteral (l : list Node) (m : TypeMap (option Node)) o :
  is_Literal o = false →
  items (object_to_type (foldl data_type_step m l)) !! o
  = items (object_to_type m) !! o.
Proof.
  intros Ho. revert m. induction l as [|x l IH]; intros m; [done|].
  cbn [foldl]. rewrite IH. by apply data_type_step_nonliteral.
Qed.

Lemma foldl_data_type_step_default (l : list Node) (m : TypeMap (option Node)) :
  _default (object_to_type (foldl data_type_step m l)) = _default (object_to_type m).
Proof.
  revert m. induction l as [|x l IH]; intros m; [done|].
  cbn [foldl]. rewrite IH. by destruct x.
Qed.

(** X3. The object-to-type map of the literal datatype index, for every
    node: a literal that occurs as an object is mapped to its datatype (the
    explicit one, else [xsd:string] with a language tag, else
    [xsd:anyType]); every other node reads [None]. *)
Theorem generate_data_type_map_object_to_type_full (g : Graph) (o : Node) :
  getitem (object_to_type (generate_data_type_map g)) o
  = if bool_decide (o ∈ objects g None None ∧ is_Literal o = true)
    then dtype_of o
    else None.
Proof.
  case_bool_decide as Ho.
  - destruct Ho as [Hin Hlit]. by apply generate_data_type_map_object_to_type.
  - unfold generate_data_type_map, getitem, __missing__.
    rewrite foldl_data_type_step_default.
    destruct (decide (o ∈ objects g None None)) as [Hin|Hnin].
    + rewrite foldl_data_type_step_nonliteral; [done|].
      destruct (is_Literal o); [|done]. by destruct Ho.
    + by rewrite foldl_data_type_step_other.
Qed.

Lemma foldl_data_type_step_bucket (l : list Node) (m : TypeMap (option Node)) D :
  items (type_to_object (foldl data_type_step m l)) !! D
  = match last (List.filter (λ o, bool_decide (dtype_of o = Some D)) l) with
    | Some o => Some {[o]}
    | None => items (type_to_object m) !! D
    end.
Proof.
  revert m. induction l as [|x l IH]; intros m; [done|].
  cbn [foldl]. rewrite IH. cbn [List.filter].
  destruct x as [i|i|lx dx gx vx].
  - rewrite bool_decide_eq_false_2 by done. done.
  - rewrite bool_decide_eq_false_2 by done. done.
  - rewrite data_type_step_literal. cbn [dtype_of].
    case_bool_decide as HD.
    + rewrite last_cons. destruct (last _); [done|].
      injection HD as <-. cbn. rewrite lookup_insert_eq.
      by rewrite (left_id_L ∅ (∪)).
    + destruct (last _); [done|]. cbn. rewrite lookup_insert_ne; [done|].
      intros Heq. apply HD. by rewrite Heq.
Qed.

(** X4. The type-to-object map of the literal datatype index, as built:
    the bucket of a datatype holds the last literal of that datatype among
    the objects, in iteration order, and nothing else; it is empty when
    there is no such literal. *)
Theorem generate_data_type_map_bucket_last (g : Graph) (D : Node) :
  getitem (type_to_object (generate_data_type_map g)) D
  = match last (List.filter (λ o, bool_decide (dtype_of o = Some D))
                            (objects g None None)) with
    | Some o => {[o]}
    | None => ∅
    end.
Proof.
  unfold generate_data_type_map, getitem, __missing__.
  rewrite foldl_data_type_step_bucket.
  destruct (last _); [done|]. simpl. rewrite lookup_empty.
  match goal with |- context [foldl data_type_step ?m' ?l] =>
    destruct (foldl_data_type_step_buckets l m') as [Hd _] end.
  { simpl. intros k S. by rewrite lookup_empty. }
  by rewrite Hd.
Qed.

(** ** The entity type index, in full *)

(** X5. The two directions of the entity type index agree, for every pair
    of nodes: [c] is among the classes of [e] exactly when [e] is in the
    bucket of [c], and that is exactly when [e] is a [URIRef] subject of the
    graph and [c] one of its asserted classes, or the generic class when it
    has none. *)
Theorem generate_object_type_map_bidirectional (g : Graph) (e c : Node) :
  (c ∈ getitem (object_to_type (generate_object_type_map g)) e
   ↔ e ∈ getitem (type_to_object (generate_object_type_map g)) c)
  ∧ (c ∈ getitem (object_to_type (generate_object_type_map g)) e
     ↔ is_URIRef e = true ∧ e ∈ subjects g None None ∧ c ∈ ctypes_of g e).
Proof.
  destruct (generate_object_type_map_holds g) as (H1 & H2 & D1 & D2).
  assert (c ∈ getitem (object_to_type (generate_object_type_map g)) e
          ↔ is_URIRef e = true ∧ e ∈ subjects g None None ∧ c ∈ ctypes_of g e)
    as Ha.
  { rewrite <- H1. split; [by apply getitem_holds | apply holds_getitem]. }
  split; [|exact Ha].
  rewrite Ha, <- H2. split; [apply holds_getitem | by apply getitem_holds].
Qed.

(** A stored set is created together with its first member. *)
Lemma foldl_object_type_step_nonempty g (l : list Node) (m : TypeMap (gset Node)) :
  (∀ k S, items (object_to_type m) !! k = Some S → ∃ x, x ∈ S) →
  ∀ k S, items (object_to_type (foldl (object_type_step g) m l)) !! k = Some S →
         ∃ x, x ∈ S.
Proof.
  revert m. induction l as [|x l IH]; intros m Hm; [done|].
  cbn [foldl]. apply IH. unfold object_type_step.
  destruct (is_URIRef x); simpl; [|done].
  generalize (ctypes_of g x). intros cs. revert m Hm.
  induction cs as [|c cs IHc]; intros m Hm; [done|].
  cbn [foldl]. apply IHc. unfold object_type_inner. simpl.
  intros k S. unfold add_at.
  case_bool_decide as Hk.
  - simpl. rewrite lookup_insert_eq. simpl.
    destruct (decide (k = x)) as [->|Hne].
    + rewrite lookup_insert_eq. intros [= <-]. exists c. set_solver.
    + rewrite !lookup_insert_ne by done. apply Hm.
  - apply in_keys in Hk as [S0 HS0]. rewrite HS0. simpl.
    destruct (decide (k = x)) as [->|Hne].
    + rewrite lookup_insert_eq. intros [= <-]. exists c. set_solver.
    + rewrite lookup_insert_ne by done. apply Hm.
Qed.

(** X6. A node that is not a [URIRef], or is not a subject of the graph,
    has no class in the entity type index and is not one of its keys. *)
Theorem generate_object_type_map_skipped (g : Graph) (e : Node) :
  is_URIRef e = false ∨ e ∉ subjects g None None →
  getitem (object_to_type (generate_object_type_map g)) e = ∅
  ∧ contains (object_to_type (generate_object_type_map g)) e = false.
Proof.
  intros He.
  destruct (generate_object_type_map_holds g) as (H1 & _ & D1 & _).
  assert (∀ c, ¬ holds (object_to_type (generate_object_type_map g)) e c) as Hn.
  { intros c Hh. apply H1 in Hh as (Hu & Hs & _).
    destruct He as [He|He]; [congruence|done]. }
  split.
  - apply set_eq. intros c. split; [|set_solver].
    intros Hc. apply getitem_holds in Hc; [|done]. by apply Hn in Hc.
  - apply contains_false.
    destruct (items _ !! e) as [S|] eqn:Hk; [|done].
    exfalso. pose proof Hk as Hk'. unfold generate_object_type_map in Hk'.
    apply foldl_object_type_step_nonempty in Hk' as [x Hx].
    + apply (Hn x). exists S. split; [exact Hk | exact Hx].
    + intros k S'. simpl. by rewrite lookup_empty.
Qed.

Lemma generate_object_type_map_skipped_witness :
  (is_URIRef (BNode "b0") = false ∨ BNode "b0" ∉ subjects people_graph None None)
  ∧ getitem (object_to_type (generate_object_type_map people_graph)) (BNode "b0") = ∅
  ∧ contains (object_to_type (generate_object_type_map people_graph)) (BNode "b0")
    = false.
Proof.
  assert (is_URIRef (BNode "b0") = false
          ∨ BNode "b0" ∉ subjects people_graph None None) as H by (left; reflexivity).
  split; [exact H|]. exact (generate_object_type_map_skipped people_graph _ H).
Defined.

(** ** Graph patterns *)

Lemma elem_of_triples (g : Graph) s p o t :
  t ∈ triples g s p o
  ↔ t ∈ g ∧ pattern_match s (subject_of t) = true
    ∧ pattern_match p (predicate_of t) = true
    ∧ pattern_match o (object_of t) = true.
Proof.
  unfold triples. rewrite !list_elem_of_In, filter_In, !andb_true_iff. tauto.
Qed.

Lemma elem_of_subjects (g : Graph) p o s :
  s ∈ subjects g p o
  ↔ ∃ p' o', (s, p', o') ∈ g ∧ pattern_match p p' = true
             ∧ pattern_match o o' = true.
Proof.
  unfold subjects. rewrite list_elem_of_fmap. split.
  - intros ([[s' p'] o'] & -> & Ht). apply elem_of_triples in Ht.
    exists p', o'. tauto.
  - intros (p' & o' & Ht & Hp & Ho). exists (s, p', o').
    split; [done|]. apply elem_of_triples. tauto.
Qed.

Lemma elem_of_objects (g : Graph) s p o :
  o ∈ objects g s p
  ↔ ∃ s' p', (s', p', o) ∈ g ∧ pattern_match s s' = true
             ∧ pattern_match p p' = true.
Proof.
  unfold objects. rewrite list_elem_of_fmap. split.
  - intros ([[s' p'] o'] & -> & Ht). apply elem_of_triples in Ht.
    exists s', p'. tauto.
  - intros (s' & p' & Ht & Hs & Hp). exists (s', p', o).
    split; [done|]. apply elem_of_triples. tauto.
Qed.

Lemma pattern_match_Some (x n : Node) : pattern_match (Some x) n = true ↔ x = n.
Proof. apply bool_decide_eq_true. Qed.

(** ** Dictionaries of sets, up to what they hold *)

Section set_dictionaries_ext.
Context {K A : Type} `{Countable K} `{Countable A}.
Implicit Types (d : DictDefault K (gset A)) (k : K) (x : A).

Lemma nonempty_sets_init : nonempty_sets (DictDefault_init (K:=K) (∅ : gset A)).
Proof. intros k S. simpl. by rewrite lookup_empty. Qed.

Lemma nonempty_sets_store_or_add d k x :
  nonempty_sets d →
  nonempty_sets (if bool_decide (k ∉ keys d) then setitem d k {[x]} else add_at d k x).
Proof.
  intros Hd k' S. unfold add_at. case_bool_decide as Hk.
  - simpl. destruct (decide (k' = k)) as [->|Hne].
    + rewrite lookup_insert_eq. intros [= <-]. exists x. set_solver.
    + rewrite lookup_insert_ne by done. apply Hd.
  - apply in_keys in Hk as [S0 HS0]. rewrite HS0. simpl.
    destruct (decide (k' = k)) as [->|Hne].
    + rewrite lookup_insert_eq. intros [= <-]. exists x. set_solver.
    + rewrite lookup_insert_ne by done. apply Hd.
Qed.

Lemma nonempty_sets_ensure_add d k x :
  nonempty_sets d →
  nonempty_sets (add_at (if bool_decide (k ∉ keys d) then setitem d k ∅ else d) k x).
Proof.
  intros Hd k' S. unfold add_at. case_bool_decide as Hk.
  - simpl. rewrite lookup_insert_eq. simpl.
    destruct (decide (k' = k)) as [->|Hne].
    + rewrite lookup_insert_eq. intros [= <-]. exists x. set_solver.
    + rewrite !lookup_insert_ne by done. apply Hd.
  - apply in_keys in Hk as [S0 HS0]. rewrite HS0. simpl.
    destruct (decide (k' = k)) as [->|Hne].
    + rewrite lookup_insert_eq. intros [= <-]. exists x. set_solver.
    + rewrite lookup_insert_ne by done. apply Hd.
Qed.

Lemma in_keys_holds d k : nonempty_sets d → k ∈ keys d ↔ ∃ x, holds d k x.
Proof.
  intros Hd. rewrite in_keys. split.
  - intros [S HS]. destruct (Hd k S HS) as [x Hx]. exists x, S. done.
  - intros (x & S & HS & _). by exists S.
Qed.

(** Two dictionaries with the same default, no empty stored set and the
    same members under every key are the same dictionary. *)
Lemma DictDefault_sets_ext d1 d2 :
  _default d1 = _default d2 → nonempty_sets d1 → nonempty_sets d2 →
  (∀ k x, holds d1 k x ↔ holds d2 k x) → d1 = d2.
Proof.
  destruct d1 as [df1 it1], d2 as [df2 it2]. unfold nonempty_sets, holds. simpl.
  intros -> N1 N2 Hh. f_equal. apply map_eq. intros k.
  destruct (it1 !! k) as [S1|] eqn:E1, (it2 !! k) as [S2|] eqn:E2.
  - f_equal. apply set_eq. intros x. split; intros Hx.
    + destruct (proj1 (Hh k x)) as (S & HS & HxS); [by exists S1|]. congruence.
    + destruct (proj2 (Hh k x)) as (S & HS & HxS); [by exists S2|]. congruence.
  - destruct (N1 k S1 E1) as [x Hx].
    destruct (proj1 (Hh k x)) as (S & HS & _); [by exists S1|]. congruence.
  - destruct (N2 k S2 E2) as [x Hx].
    destruct (proj2 (Hh k x)) as (S & HS & _); [by exists S2|]. congruence.
  - done.
Qed.

End set_dictionaries_ext.

(** ** The predicate index, in full *)

Lemma entry_of_Some predicate_map p entry :
  predicate_map !! p = Some entry → entry_of predicate_map p = entry.
Proof. intros Hp. unfold entry_of. by rewrite Hp. Qed.

Lemma predicate_step_in_use predicate_map s p o predicate_map' :
  entries_in_use predicate_map →
  predicate_step predicate_map (s, p, o) = Ok predicate_map' →
  entries_in_use predicate_map'.
Proof.
  intros Hu. rewrite predicate_step_eq. intros [= <-]. intros p' entry.
  destruct (decide (p = p')) as [<-|Hne].
  - rewrite lookup_insert_eq. intros [= <-]. simpl.
    rewrite !default_store_or_add.
    assert (_default (forwards (entry_of predicate_map p)) = ∅
            ∧ _default (backwards (entry_of predicate_map p)) = ∅
            ∧ nonempty_sets (forwards (entry_of predicate_map p))
            ∧ nonempty_sets (backwards (entry_of predicate_map p)))
      as (D1 & D2 & N1 & N2).
    { unfold entry_of. destruct (predicate_map !! p) as [e|] eqn:Hp; simpl.
      - destruct (Hu p e Hp) as (? & ? & ? & ? & _). done.
      - split; [done|]. split; [done|]. split; apply nonempty_sets_init. }
    split; [done|]. split; [done|].
    split; [by apply nonempty_sets_store_or_add|].
    split; [by apply nonempty_sets_store_or_add|].
    exists s, o. apply holds_store_or_add. by left.
  - rewrite lookup_insert_ne by done. apply Hu.
Qed.

Lemma for_each_predicate_step_in_use (l : list Triple) predicate_map predicate_map' :
  entries_in_use predicate_map →
  for_each predicate_step predicate_map l = Ok predicate_map' →
  entries_in_use predicate_map'.
Proof.
  revert predicate_map. induction l as [|[[s p] o] l IH]; intros pm Hu.
  - by intros [= <-].
  - cbn [for_each].
    destruct (predicate_step pm (s, p, o)) as [pm1|e] eqn:Hstep; simpl; [|done].
    apply IH. by eapply predicate_step_in_use.
Qed.

(** Everything about a built predicate map at once. *)
Lemma generate_predicate_map_built (g : Graph) :
  ∃ predicate_map,
    generate_predicate_map g = Ok predicate_map
    ∧ entries_in_use predicate_map
    ∧ (∀ s p o, records_fw predicate_map s p o ↔ (s, p, o) ∈ g)
    ∧ (∀ s p o, records_bw predicate_map s p o ↔ (s, p, o) ∈ g).
Proof.
  unfold generate_predicate_map. rewrite triples_all.
  destruct (for_each_predicate_step g ∅) as (pm & Hrun & Hfw & Hbw & _).
  exists pm. split; [done|]. split; [|split].
  - eapply for_each_predicate_step_in_use; [|exact Hrun].
    intros p entry. by rewrite lookup_empty.
  - intros s p o. rewrite Hfw. pose proof (records_empty s p o). naive_solver.
  - intros s p o. rewrite Hbw. pose proof (records_empty s p o). naive_solver.
Qed.

Lemma records_bw_entry predicate_map s p o :
  records_bw predicate_map s p o →
  ∃ entry, predicate_map !! p = Some entry ∧ entry_of predicate_map p = entry.
Proof.
  unfold records_bw, entry_of.
  destruct (predicate_map !! p) as [entry|]; simpl; [by exists entry|].
  intros Hh. by apply holds_init in Hh.
Qed.

Lemma generate_predicate_map_built_keys (g : Graph) :
  ∃ predicate_map,
    generate_predicate_map g = Ok predicate_map
    ∧ (∀ p, p ∈ dom predicate_map ↔ ∃ s o, (s, p, o) ∈ g)
    ∧ (∀ p entry, predicate_map !! p = Some entry →
         (∀ s, s ∈ keys (forwards entry) ↔ ∃ o, (s, p, o) ∈ g)
         ∧ (∀ o, o ∈ keys (backwards entry) ↔ ∃ s, (s, p, o) ∈ g))
    ∧ (g = [] → predicate_map = ∅).
Proof.
  destruct (generate_predicate_map_built g) as (pm & Hrun & Hu & Hfw & Hbw).
  exists pm. split; [done|].
  assert (∀ p, p ∈ dom pm ↔ ∃ s o, (s, p, o) ∈ g) as Hdom.
  { intros p. rewrite elem_of_dom. split.
    - intros [entry Hp]. destruct (Hu p entry Hp) as (_ & _ & _ & _ & s & o & Hh).
      exists s, o. apply Hfw. unfold records_fw. by rewrite (entry_of_Some _ _ _ Hp).
    - intros (s & o & Hin). apply Hfw in Hin.
      apply records_fw_entry in Hin as (entry & Hp & _). by exists entry. }
  split; [exact Hdom|]. split.
  - intros p entry Hp.
    destruct (Hu p entry Hp) as (_ & _ & N1 & N2 & _).
    pose proof (entry_of_Some _ _ _ Hp) as He.
    split.
    + intros s. rewrite (in_keys_holds _ _ N1).
      split; intros [o Ho]; exists o.
      * apply Hfw. unfold records_fw. by rewrite He.
      * apply Hfw in Ho. unfold records_fw in Ho. by rewrite He in Ho.
    + intros o. rewrite (in_keys_holds _ _ N2).
      split; intros [s Hs]; exists s.
      * apply Hbw. unfold records_bw. by rewrite He.
      * apply Hbw in Hs. unfold records_bw in Hs. by rewrite He in Hs.
  - intros ->. apply map_eq. intros p. rewrite lookup_empty.
    apply not_elem_of_dom. rewrite Hdom. intros (s & o & Hin).
    by apply elem_of_nil in Hin.
Qed.

(** X7. Building the predicate index never raises.  Its keys are the
    predicates that occur in the graph; under a predicate, the keys of the
    forward map are the subjects that have that predicate and the keys of
    the backward map are its objects.  In particular the index of a graph
    without triples is empty. *)
Theorem generate_predicate_map_keys (g : Graph) :
  ∃ predicate_map,
    generate_predicate_map g = Ok predicate_map
    ∧ (∀ p, p ∈ dom predicate_map ↔ ∃ s o, (s, p, o) ∈ g)
    ∧ (∀ p entry, predicate_map !! p = Some entry →
         (∀ s, s ∈ keys (forwards entry) ↔ ∃ o, (s, p, o) ∈ g)
         ∧ (∀ o, o ∈ keys (backwards entry) ↔ ∃ s, (s, p, o) ∈ g))
    ∧ (g = [] → predicate_map = ∅).
Proof. apply generate_predicate_map_built_keys. Qed.

Lemma predicate_map_ext (pm1 pm2 : gmap Node PredicateEntry) :
  entries_in_use pm1 → entries_in_use pm2 →
  (∀ s p o, records_fw pm1 s p o ↔ records_fw pm2 s p o) →
  (∀ s p o, records_bw pm1 s p o ↔ records_bw pm2 s p o) →
  pm1 = pm2.
Proof.
  intros U1 U2 Hfw Hbw. apply map_eq. intros p.
  assert (∀ (pma pmb : gmap Node PredicateEntry) e,
            entries_in_use pma →
            (∀ s p o, records_fw pma s p o ↔ records_fw pmb s p o) →
            pma !! p = Some e → ∃ e', pmb !! p = Some e') as Hex.
  { intros pma pmb e Ua Hab Hp.
    destruct (Ua p e Hp) as (_ & _ & _ & _ & s & o & Hh).
    assert (records_fw pma s p o) as Hr
      by (unfold records_fw; by rewrite (entry_of_Some _ _ _ Hp)).
    apply Hab, records_fw_entry in Hr as (e' & Hp' & _). by exists e'. }
  destruct (pm1 !! p) as [e1|] eqn:E1, (pm2 !! p) as [e2|] eqn:E2.
  - f_equal.
    destruct (U1 p e1 E1) as (D1 & D1' & N1 & N1' & _).
    destruct (U2 p e2 E2) as (D2 & D2' & N2 & N2' & _).
    pose proof (entry_of_Some _ _ _ E1) as He1.
    pose proof (entry_of_Some _ _ _ E2) as He2.
    destruct e1 as [f1 b1], e2 as [f2 b2]. simpl in *. f_equal.
    + apply DictDefault_sets_ext; [congruence|done..|].
      intros s o. specialize (Hfw s p o). unfold records_fw in Hfw.
      by rewrite He1, He2 in Hfw.
    + apply DictDefault_sets_ext; [congruence|done..|].
      intros o s. specialize (Hbw s p o). unfold records_bw in Hbw.
      by rewrite He1, He2 in Hbw.
  - destruct (Hex pm1 pm2 e1 U1 Hfw E1) as [e' He']. congruence.
  - destruct (Hex pm2 pm1 e2 U2 (λ s p o, symmetry (Hfw s p o)) E2) as [e' He'].
    congruence.
  - done.
Qed.

(** X8. The predicate index depends on the set of triples only: two
    iteration orders of one graph, with or without repeated triples, give
    the same index. *)
Theorem generate_predicate_map_order (g g' : Graph) :
  (∀ t, t ∈ g ↔ t ∈ g') →
  generate_predicate_map g = generate_predicate_map g'.
Proof.
  intros Hg.
  destruct (generate_predicate_map_built g) as (pm & -> & Hu & Hfw & Hbw).
  destruct (generate_predicate_map_built g') as (pm' & -> & Hu' & Hfw' & Hbw').
  f_equal. apply predicate_map_ext; [done..| |].
  - intros s p o. by rewrite Hfw, Hfw', Hg.
  - intros s p o. by rewrite Hbw, Hbw', Hg.
Qed.

Lemma generate_predicate_map_order_witness :
  (∀ t, t ∈ edges_graph ↔ t ∈ reverse edges_graph)
  ∧ generate_predicate_map edges_graph
    = generate_predicate_map (reverse edges_graph).
Proof.
  assert (∀ t, t ∈ edges_graph ↔ t ∈ reverse edges_graph) as H
    by (intros t; by rewrite elem_of_reverse).
  split; [exact H|]. exact (generate_predicate_map_order _ _ H).
Defined.

(** X9. Support on a built index.  When the predicate of the assertion
    occurs in the graph, the support is the number of nodes of the domain
    that are the subject of a triple with that predicate; when it does not
    occur, the call raises [KeyError]. *)
Theorem predicate_frequency_built (g : Graph) :
  ∃ predicate_map,
    generate_predicate_map g = Ok predicate_map
    ∧ ∀ assertion assertion_domain,
        predicate_frequency predicate_map assertion assertion_domain
        = match triples g None (Some (predicate assertion)) None with
          | [] => Raise KeyError
          | _ =>
              Ok (size (assertion_domain
                        ∩ list_to_set (subjects g (Some (predicate assertion)) None)))
          end.
Proof.
  destruct (generate_predicate_map_built_keys g) as (pm & Hrun & Hdom & Hkeys & _).
  exists pm. split; [done|]. intros a domain.
  unfold predicate_frequency, dict_getitem.
  destruct (pm !! predicate a) as [entry|] eqn:Hp; simpl.
  - destruct (Hkeys _ _ Hp) as [Hk _].
    assert (keys (forwards entry)
            = list_to_set (subjects g (Some (predicate a)) None)) as ->.
    { apply set_eq. intros s. rewrite Hk, elem_of_list_to_set, elem_of_subjects.
      split.
      - intros [o Ho]. exists (predicate a), o.
        split; [done|]. split; [by apply pattern_match_Some|done].
      - intros (p' & o & Ho & Hp' & _). apply pattern_match_Some in Hp' as <-.
        by exists o. }
    destruct (triples g None (Some (predicate a)) None) as [|t l] eqn:Ht; [|done].
    exfalso. assert (predicate a ∈ dom pm) as Hd by (apply elem_of_dom; eauto).
    apply Hdom in Hd as (s & o & Hin).
    assert ((s, predicate a, o) ∈ triples g None (Some (predicate a)) None) as Hin'.
    { apply elem_of_triples. split; [done|]. split; [done|].
      split; [by apply pattern_match_Some|done]. }
    rewrite Ht in Hin'. by apply elem_of_nil in Hin'.
  - destruct (triples g None (Some (predicate a)) None) as [|[[s p] o] l] eqn:Ht;
      [done|].
    exfalso. apply not_elem_of_dom in Hp. apply Hp, Hdom.
    assert ((s, p, o) ∈ triples g None (Some (predicate a)) None) as Hin
      by (rewrite Ht; left).
    apply elem_of_triples in Hin as (Hin & _ & Hp' & _).
    apply pattern_match_Some in Hp'. cbn in Hp'. subst p. eauto.
Qed.

(** ** The entity type index does not depend on the iteration order *)

Lemma foldl_object_type_step_nonempty_sets g (l : list Node) (m : TypeMap (gset Node)) :
  nonempty_sets (object_to_type m) → nonempty_sets (type_to_object m) →
  nonempty_sets (object_to_type (foldl (object_type_step g) m l))
  ∧ nonempty_sets (type_to_object (foldl (object_type_step g) m l)).
Proof.
  revert m. induction l as [|x l IH]; intros m N1 N2; [done|].
  cbn [foldl]. unfold object_type_step at 2 4.
  destruct (is_URIRef x); simpl; [|by apply IH].
  assert (nonempty_sets (object_to_type (foldl (object_type_inner x) m (ctypes_of g x)))
          ∧ nonempty_sets (type_to_object (foldl (object_type_inner x) m (ctypes_of g x))))
    as [N1' N2'].
  { generalize (ctypes_of g x). intros cs. revert m N1 N2.
    induction cs as [|c cs IHc]; intros m N1 N2; [done|].
    cbn [foldl]. apply IHc; unfold object_type_inner; simpl;
      by apply nonempty_sets_ensure_add. }
  by apply IH.
Qed.

Lemma elem_of_ctypes_of (g : Graph) (e c : Node) :
  c ∈ ctypes_of g e
  ↔ (e, RDF_type, c) ∈ g ∨ (c = RDFS_Class ∧ ∀ c', (e, RDF_type, c') ∉ g).
Proof.
  assert (∀ c', c' ∈ objects g (Some e) (Some RDF_type) ↔ (e, RDF_type, c') ∈ g)
    as Hobj.
  { intros c'. rewrite elem_of_objects. split.
    - intros (s' & p' & Hin & Hs & Hp).
      apply pattern_match_Some in Hs, Hp. by subst.
    - intros Hin. exists e, RDF_type.
      split; [done|]. split; by apply pattern_match_Some. }
  rewrite ctypes_of_asserted.
  destruct (objects g (Some e) (Some RDF_type)) as [|c0 l] eqn:Ho.
  - rewrite list_elem_of_singleton. split.
    + intros ->. right. split; [done|]. intros c' Hin.
      apply Hobj in Hin. by apply elem_of_nil in Hin.
    + intros [Hin|[-> _]]; [|done]. apply Hobj in Hin. by apply elem_of_nil in Hin.
  - rewrite Hobj. split; [by left|]. intros [Hin|[_ Hno]]; [done|].
    exfalso. apply (Hno c0), Hobj. left.
Qed.

(** X10. The entity type index depends on the set of triples only: two
    iteration orders of one graph, with or without repeated triples, give
    the same index. *)
Theorem generate_object_type_map_order (g g' : Graph) :
  (∀ t, t ∈ g ↔ t ∈ g') →
  generate_object_type_map g = generate_object_type_map g'.
Proof.
  intros Hg.
  assert (∀ e c, (is_URIRef e = true ∧ e ∈ subjects g None None ∧ c ∈ ctypes_of g e)
               ↔ (is_URIRef e = true ∧ e ∈ subjects g' None None ∧ c ∈ ctypes_of g' e))
    as HP.
  { intros e c. rewrite !elem_of_subjects, !elem_of_ctypes_of.
    setoid_rewrite Hg. done. }
  destruct (generate_object_type_map_holds g) as (H1 & H2 & D1 & D2).
  destruct (generate_object_type_map_holds g') as (H1' & H2' & D1' & D2').
  destruct (foldl_object_type_step_nonempty_sets g (subjects g None None)
              (mkTypeMap (DictDefault_init ∅) (DictDefault_init ∅)))
    as [N1 N2]; [apply nonempty_sets_init..|].
  destruct (foldl_object_type_step_nonempty_sets g' (subjects g' None None)
              (mkTypeMap (DictDefault_init ∅) (DictDefault_init ∅)))
    as [N1' N2']; [apply nonempty_sets_init..|].
  fold (generate_object_type_map g) in N1, N2.
  fold (generate_object_type_map g') in N1', N2'.
  destruct (generate_object_type_map g) as [o2t t2o],
           (generate_object_type_map g') as [o2t' t2o'].
  simpl in *. f_equal.
  - apply DictDefault_sets_ext; [congruence|done..|].
    intros e c. by rewrite H1, H1', HP.
  - apply DictDefault_sets_ext; [congruence|done..|].
    intros c e. by rewrite H2, H2', HP.
Qed.

Lemma generate_object_type_map_order_witness :
  (∀ t, t ∈ people_graph ↔ t ∈ reverse people_graph)
  ∧ generate_object_type_map people_graph
    = generate_object_type_map (reverse people_graph).
Proof.
  assert (∀ t, t ∈ people_graph ↔ t ∈ reverse people_graph) as H
    by (intros t; by rewrite elem_of_reverse).
  split; [exact H|]. exact (generate_object_type_map_order _ _ H).
Defined.

(** ** The builders leave every default alone *)

Lemma foldl_label_step_default (l : list Triple) (label_map : DictDefault Node pyval) :
  _default (foldl label_step label_map l) = _default label_map.
Proof.
  revert label_map. induction l as [|[[s p] o] l IH]; intros label_map; [done|].
  cbn [foldl]. by rewrite IH.
Qed.

(** X11. No builder ever writes through a missing key: in every built
    index the default objects are what they were at construction, the empty
    string for labels, [None] for the datatype of a literal, the empty set
    everywhere else.  A lookup of an unknown key reads that value. *)
Theorem builders_keep_defaults (g : Graph) :
  _default (generate_label_map g) = PyPrim (VStr "")
  ∧ _default (object_to_type (generate_data_type_map g)) = None
  ∧ _default (type_to_object (generate_data_type_map g)) = ∅
  ∧ _default (object_to_type (generate_object_type_map g)) = ∅
  ∧ _default (type_to_object (generate_object_type_map g)) = ∅
  ∧ ∃ predicate_map,
      generate_predicate_map g = Ok predicate_map
      ∧ ∀ p entry, predicate_map !! p = Some entry →
          _default (forwards entry) = ∅ ∧ _default (backwards entry) = ∅.
Proof.
  split; [apply foldl_label_step_default|].
  split; [apply foldl_data_type_step_default|].
  split.
  { unfold generate_data_type_map.
    match goal with |- context [foldl data_type_step ?m' ?l] =>
      destruct (foldl_data_type_step_buckets l m') as [Hd _] end.
    - simpl. intros k S. by rewrite lookup_empty.
    - by rewrite Hd. }
  destruct (generate_object_type_map_holds g) as (_ & _ & D1 & D2).
  split; [done|]. split; [done|].
  destruct (generate_predicate_map_built g) as (pm & Hrun & Hu & _).
  exists pm. split; [done|]. intros p entry Hp.
  destruct (Hu p entry Hp) as (? & ? & _). done.
Qed.

(** ** The equivalence test, further *)

Lemma existsb_type_eq (t : Node) (S : gset Node) :
  existsb (λ ctype, bool_decide (Some ctype = Some t)) (elements S) = true ↔ t ∈ S.
Proof.
  rewrite existsb_exists. split.
  - intros (c & Hin & Hc). apply bool_decide_eq_true in Hc as [= ->].
    by apply elem_of_elements, list_elem_of_In.
  - intros Hin. exists t. split; [|by apply bool_decide_eq_true].
    by apply list_elem_of_In, elem_of_elements.
Qed.

Lemma isSameType_ObjectTypeVariable (t : Node) (n : Node) (cache : Cache) :
  isSameType (ObjectTypeVariable t) (Resource n) cache = true
  ↔ is_URIRef n = true
    ∧ contains (object_to_type (object_type_map cache)) n = true
    ∧ t ∈ getitem (object_to_type (object_type_map cache)) n.
Proof.
  unfold isSameType. simpl. rewrite <- existsb_type_eq.
  destruct (is_URIRef n), (contains _ n), (existsb _ _); simpl; naive_solver.
Qed.

Lemma isSameType_DataTypeVariable (t : Node) (n : Node) (cache : Cache) :
  isSameType (DataTypeVariable t) (Resource n) cache = true
  ↔ is_Literal n = true
    ∧ contains (object_to_type (data_type_map cache)) n = true
    ∧ getitem (object_to_type (data_type_map cache)) n = Some t.
Proof.
  unfold isSameType. simpl.
  destruct (is_Literal n), (contains _ n); simpl;
    try (split; [discriminate|intros (? & ? & ?); discriminate]).
  case_bool_decide as Ht; split.
  - intros _. by rewrite <- Ht.
  - done.
  - discriminate.
  - intros (_ & _ & Ht'). by rewrite Ht' in Ht.
Qed.

(** X12. A self-comparison is true exactly when the left-hand side is an
    [ObjectTypeVariable]: the test is reflexive on the assertions it is
    meant for and false on every other one, whatever the cache. *)
Theorem isEquivalent_reflexive (assertion : Assertion) (cache : Cache) :
  isEquivalent assertion assertion cache
  = isinstance_ObjectTypeVariable (lhs assertion).
Proof.
  unfold isEquivalent.
  rewrite (bool_decide_eq_true_2 (Term_type (lhs assertion) = _)) by done.
  rewrite (bool_decide_eq_false_2 (predicate assertion ≠ _)) by (intros H; by apply H).
  rewrite (bool_decide_eq_true_2 (rhs assertion = _)) by done.
  by destruct (isinstance_ObjectTypeVariable (lhs assertion)).
Qed.

(** X13. Equivalent assertions share their subject variable and their
    predicate: when the test answers true, both left-hand sides are
    [ObjectTypeVariable]s of one type and the two predicates are equal. *)
Theorem isEquivalent_gate (assertionA assertionB : Assertion) (cache : Cache) :
  isEquivalent assertionA assertionB cache = true →
  ∃ t, lhs assertionA = ObjectTypeVariable t
       ∧ lhs assertionB = ObjectTypeVariable t
       ∧ predicate assertionA = predicate assertionB.
Proof.
  unfold isEquivalent.
  destruct (lhs assertionA) as [?|ta|?|?], (lhs assertionB) as [?|tb|?|?];
    simpl; try discriminate.
  case_bool_decide as Ht; simpl; [|discriminate].
  case_bool_decide as Hp; simpl; [discriminate|].
  intros _. exists ta. injection Ht as ->.
  split; [done|]. split; [done|]. exact Hp.
Qed.

Lemma isEquivalent_gate_witness :
  isEquivalent (hasName (plain_literal "Alice")) (hasName (plain_literal "Alice"))
               names_cache = true
  ∧ ∃ t, lhs (hasName (plain_literal "Alice")) = ObjectTypeVariable t
         ∧ lhs (hasName (plain_literal "Alice")) = ObjectTypeVariable t
         ∧ predicate (hasName (plain_literal "Alice"))
           = predicate (hasName (plain_literal "Alice")).
Proof.
  assert (isEquivalent (hasName (plain_literal "Alice"))
            (hasName (plain_literal "Alice")) names_cache = true) as H
    by (vm_compute; reflexivity).
  split; [exact H|]. exact (isEquivalent_gate _ _ _ H).
Defined.

Lemma contains_generate_object_type_map (g : Graph) (e c : Node) :
  holds (object_to_type (generate_object_type_map g)) e c →
  contains (object_to_type (generate_object_type_map g)) e = true.
Proof. intros (S & HS & _). apply contains_true. by exists S. Qed.

(** X14. Instance test against the cache of a graph, object variables: a
    resource is an instance of [?x:t] exactly when it is a [URIRef] subject
    of the graph and [t] is one of its asserted classes, or [t] is the
    generic class and it has no asserted class. *)
Theorem isSameType_ObjectTypeVariable_built (g : Graph) (t e : Node) :
  isSameType (ObjectTypeVariable t) (Resource e) (cache_of g) = true
  ↔ is_URIRef e = true ∧ e ∈ subjects g None None
    ∧ ((e, RDF_type, t) ∈ g
       ∨ (t = RDFS_Class ∧ ∀ c, (e, RDF_type, c) ∉ g)).
Proof.
  rewrite isSameType_ObjectTypeVariable, <- elem_of_ctypes_of. simpl.
  destruct (generate_object_type_map_holds g) as (H1 & _ & D1 & _).
  split.
  - intros (_ & _ & Ht). apply getitem_holds in Ht; [|done]. by apply H1.
  - intros HP. apply H1 in HP as Hh.
    split; [tauto|]. split; [by eapply contains_generate_object_type_map|].
    by apply holds_getitem.
Qed.

(** X15. Instance test against the cache of a graph, data variables: a
    resource is an instance of a [DataTypeVariable] of type [t] exactly when
    it is a literal that occurs as an object and [t] is its datatype; a
    [MultiModalNode] of the same type answers the same on every cache and
    every second argument. *)
Theorem isSameType_DataTypeVariable_built (g : Graph) (t o : Node) :
  (isSameType (DataTypeVariable t) (Resource o) (cache_of g) = true
   ↔ is_Literal o = true ∧ o ∈ objects g None None ∧ dtype_of o = Some t)
  ∧ ∀ resourceB cache,
      isSameType (MultiModalNode t) resourceB cache
      = isSameType (DataTypeVariable t) resourceB cache.
Proof.
  split; [|done].
  rewrite isSameType_DataTypeVariable. simpl. split.
  - intros (Hl & Hc & Ht). split; [done|].
    destruct (decide (o ∈ objects g None None)) as [Hin|Hnin].
    + split; [done|].
      by rewrite generate_data_type_map_object_to_type in Ht.
    + apply contains_true in Hc as [v Hv].
      unfold generate_data_type_map in Hv.
      rewrite foldl_data_type_step_other in Hv by done.
      simpl in Hv. by rewrite lookup_empty in Hv.
  - intros (Hl & Hin & Ht). split; [done|]. split.
    + apply contains_true. unfold generate_data_type_map.
      rewrite foldl_data_type_step_object_to_type by done. eauto.
    + by rewrite generate_data_type_map_object_to_type.
Qed.

(** X16. The instance test is one-sided: when it answers true, its first
    argument is a type variable and its second a concrete resource, a
    [URIRef] for an object variable and a literal for a data variable. *)
Theorem isSameType_shape (resourceA resourceB : Term) (cache : Cache) :
  isSameType resourceA resourceB cache = true →
  ∃ n, resourceB = Resource n
       ∧ match resourceA with
         | Resource _ => False
         | ObjectTypeVariable _ => is_URIRef n = true
         | DataTypeVariable _ | MultiModalNode _ => is_Literal n = true
         end.
Proof.
  unfold isSameType.
  destruct resourceA as [a|t|t|t], resourceB as [n|?|?|?]; simpl;
    try discriminate.
  - destruct (is_URIRef n) eqn:Hn; simpl; [|discriminate]. intros _.
    exists n. by split.
  - destruct (is_Literal n) eqn:Hn; simpl; [|discriminate]. intros _.
    exists n. by split.
  - destruct (is_Literal n) eqn:Hn; simpl; [|discriminate]. intros _.
    exists n. by split.
Qed.

Lemma isSameType_shape_witness :
  isSameType (ObjectTypeVariable (ex "Person")) (Resource (ex "e1"))
             (cache_of people_graph) = true
  ∧ ∃ n, Resource (ex "e1") = Resource n ∧ is_URIRef n = true.
Proof.
  assert (isSameType (ObjectTypeVariable (ex "Person")) (Resource (ex "e1"))
            (cache_of people_graph) = true) as H by (vm_compute; reflexivity).
  split; [exact H|]. exact (isSameType_shape _ _ _ H).
Defined.

(** X17. A pattern with a variable right-hand side and one with a concrete
    right-hand side, on the same subject variable and predicate, are
    equivalent exactly when the resource is an instance of the variable. *)
Theorem isEquivalent_variable_concrete (t p : Node) (x : Term) (r : Node)
    (cache : Cache) :
  isinstance_TypeVariable x = true →
  isEquivalent (mkAssertion (ObjectTypeVariable t) p x)
               (mkAssertion (ObjectTypeVariable t) p (Resource r)) cache
  = isSameType x (Resource r) cache.
Proof.
  intros Hx. unfold isEquivalent. simpl.
  rewrite (bool_decide_eq_true_2 (Some t = Some t)) by done.
  rewrite (bool_decide_eq_false_2 (p ≠ p)) by (intros H; by apply H).
  rewrite Hx. simpl.
  rewrite (bool_decide_eq_false_2 (x = Resource r)) by (by destruct x).
  simpl. by rewrite orb_false_r.
Qed.

Lemma isEquivalent_variable_concrete_witness :
  isinstance_TypeVariable (ObjectTypeVariable (ex "Person")) = true
  ∧ isEquivalent
      (mkAssertion (ObjectTypeVariable (ex "T")) (ex "knows")
                   (ObjectTypeVariable (ex "Person")))
      (mkAssertion (ObjectTypeVariable (ex "T")) (ex "knows") (Resource (ex "e1")))
      (cache_of people_graph)
    = isSameType (ObjectTypeVariable (ex "Person")) (Resource (ex "e1"))
                 (cache_of people_graph).
Proof.
  split; [reflexivity|].
  exact (isEquivalent_variable_concrete (ex "T") (ex "knows")
           (ObjectTypeVariable (ex "Person")) (ex "e1") (cache_of people_graph)
           eq_refl).
Defined.

(** X18. The test is not transitive: two different resources that are both
    instances of a variable are each equivalent to the variable pattern and
    not equivalent to each other. *)
Theorem isEquivalent_not_transitive (t p : Node) (x : Term) (r1 r2 : Node)
    (cache : Cache) :
  isSameType x (Resource r1) cache = true →
  isSameType x (Resource r2) cache = true →
  r1 ≠ r2 →
  isEquivalent (mkAssertion (ObjectTypeVariable t) p (Resource r1))
               (mkAssertion (ObjectTypeVariable t) p x) cache = true
  ∧ isEquivalent (mkAssertion (ObjectTypeVariable t) p x)
                 (mkAssertion (ObjectTypeVariable t) p (Resource r2)) cache = true
  ∧ isEquivalent (mkAssertion (ObjectTypeVariable t) p (Resource r1))
                 (mkAssertion (ObjectTypeVariable t) p (Resource r2)) cache = false.
Proof.
  intros H1 H2 Hne. unfold isEquivalent. simpl.
  rewrite (bool_decide_eq_true_2 (Some t = Some t)) by done.
  rewrite (bool_decide_eq_false_2 (p ≠ p)) by (intros H; by apply H).
  simpl. rewrite H1, H2.
  rewrite (bool_decide_eq_false_2 (Resource r1 = Resource r2)) by congruence.
  rewrite !orb_true_r. done.
Qed.

Lemma isEquivalent_not_transitive_witness :
  let x := ObjectTypeVariable (ex "Person") in
  let cache := cache_of people_graph in
  let pattern rhs := mkAssertion (ObjectTypeVariable (ex "T")) (ex "knows") rhs in
  isSameType x (Resource (ex "e1")) cache = true
  ∧ isSameType x (Resource (ex "e3")) cache = true
  ∧ ex "e1" ≠ ex "e3"
  ∧ isEquivalent (pattern (Resource (ex "e1"))) (pattern x) cache = true
  ∧ isEquivalent (pattern x) (pattern (Resource (ex "e3"))) cache = true
  ∧ isEquivalent (pattern (Resource (ex "e1"))) (pattern (Resource (ex "e3")))
                 cache = false.
Proof.
  intros x cache pattern.
  assert (isSameType x (Resource (ex "e1")) cache = true) as H1
    by (vm_compute; reflexivity).
  assert (isSameType x (Resource (ex "e3")) cache = true) as H2
    by (vm_compute; reflexivity).
  assert (ex "e1" ≠ ex "e3") as H3 by discriminate.
  split; [exact H1|]. split; [exact H2|]. split; [exact H3|].
  exact (isEquivalent_not_transitive (ex "T") (ex "knows") x _ _ cache H1 H2 H3).
Defined.

(** ** Strings *)

Lemma string_app_cons (a : ascii) (s t : string) :
  String a s +:+ t = String a (s +:+ t).
Proof. reflexivity. Qed.

Lemma string_app_nil_l (t : string) : "" +:+ t = t.
Proof. reflexivity. Qed.

Lemma string_app_nil_r (s : string) : s +:+ "" = s.
Proof.
  induction s as [|a s IH]; [done|]. by rewrite string_app_cons, IH.
Qed.

















(** ** The value normaliser, further *)

Ltac family_member H :=
  repeat (apply elem_of_cons in H as [->|H]); [..|by apply elem_of_nil in H].

Lemma XSD_DATETIME_not_numeric (dtype : Node) :
  dtype ∈ XSD_DATETIME → bool_decide (dtype ∈ XSD_NUMERIC) = false.
Proof. intros H. unfold XSD_DATETIME in H. cbn in H. family_member H; by vm_compute. Qed.

Lemma XSD_DATEFRAG_not_others (dtype : Node) :
  dtype ∈ XSD_DATEFRAG →
  bool_decide (dtype ∈ XSD_NUMERIC) = false
  ∧ bool_decide (dtype ∈ XSD_DATETIME) = false.
Proof.
  intros H. unfold XSD_DATEFRAG in H. cbn in H. family_member H; by vm_compute.
Qed.


(** X19. The handlers of [cast_xsd] do what they say: no [ValueError] ever
    leaves it.  And it is a function of graph nodes: called on a plain
    Python value it raises [AttributeError], whatever the datatype. *)
Theorem cast_xsd_handlers (B : Builtins) (node : pyval) (dtype : Node) :
  cast_xsd B node dtype ≠ Raise ValueError
  ∧ ∀ v, cast_xsd B (PyPrim v) dtype = Raise AttributeError.
Proof. split; [apply cast_xsd_not_ValueError | done]. Qed.








(** X22. The datetime family forgets the time of day: a literal whose value
    is a datetime and one whose value is the date of the same day are
    normalised to the same result, the parse of that day at midnight. *)
Theorem cast_xsd_datetime_drops_time (B : Builtins) (dtype : Node)
    (l l' : string) (d d' g g' : option string) (dt : datetime) :
  dtype ∈ XSD_DATETIME →
  cast_xsd B (PyNode (Literal l d g (Some (VDateTime dt)))) dtype
  = cast_xsd B (PyNode (Literal l' d' g' (Some (VDate (dt_date dt))))) dtype
  ∧ ∀ parsed,
      fromisoformat_str B (combine_midnight_isoformat (dt_date dt)) = Some parsed →
      cast_xsd B (PyNode (Literal l d g (Some (VDateTime dt)))) dtype
      = Ok (PyPrim (VDateTime parsed)).
Proof.
  intros Hd. pose proof (XSD_DATETIME_not_numeric _ Hd) as Hn.
  unfold cast_xsd. simpl. rewrite Hn, bool_decide_eq_true_2 by done. simpl.
  split; [done|]. by intros parsed ->.
Qed.

Lemma cast_xsd_datetime_drops_time_witness :
  XSD "dateTime" ∈ XSD_DATETIME
  ∧ cast_xsd rejecting_builtins (PyNode datetime_literal) (XSD "dateTime")
    = cast_xsd rejecting_builtins (PyNode date_literal) (XSD "dateTime").
Proof.
  assert (XSD "dateTime" ∈ XSD_DATETIME) as H
    by (apply elem_of_cons; right; apply elem_of_cons; by left).
  split; [exact H|].
  exact (proj1 (cast_xsd_datetime_drops_time rejecting_builtins _
                  "2020-01-01T10:30:00" "2020-01-01" _ _ None None
                  (mkdatetime (mkdate 2020 1 1) 10 30 0 0 None) H)).
Defined.

(** X23. A literal without Python value whose text the conversion of its
    family rejects with [ValueError] is returned as it is: the very node
    that was passed in. *)
Theorem cast_xsd_keeps_rejected (B : Builtins) (dtype : Node)
    (l : string) (d g : option string) :
  (dtype ∈ XSD_NUMERIC ∧ float_of_str B l = None)
  ∨ (dtype ∈ XSD_DATETIME ∧ fromisoformat_str B l = None)
  ∨ (dtype ∈ XSD_DATEFRAG ∧ gFrag_to_days B l dtype = Raise ValueError) →
  cast_xsd B (PyNode (Literal l d g None)) dtype = Ok (PyNode (Literal l d g None)).
Proof.
  unfold cast_xsd. simpl. intros [[Hd Hf]|[[Hd Hf]|[Hd Hf]]].
  - rewrite bool_decide_eq_true_2 by done. simpl. by rewrite Hf.
  - rewrite (XSD_DATETIME_not_numeric _ Hd), bool_decide_eq_true_2 by done.
    simpl. by rewrite Hf.
  - destruct (XSD_DATEFRAG_not_others _ Hd) as [-> ->].
    rewrite bool_decide_eq_true_2 by done. simpl. by rewrite Hf.
Qed.

Lemma cast_xsd_keeps_rejected_witness :
  (XSD "integer" ∈ XSD_NUMERIC ∧ float_of_str rejecting_builtins "abc" = None)
  ∧ cast_xsd rejecting_builtins (PyNode illtyped_literal) (XSD "integer")
    = Ok (PyNode illtyped_literal).
Proof.
  assert (XSD "integer" ∈ XSD_NUMERIC ∧ float_of_str rejecting_builtins "abc" = None)
    as H by (split; [apply elem_of_cons; by left | reflexivity]).
  split; [exact H|].
  exact (cast_xsd_keeps_rejected rejecting_builtins (XSD "integer") "abc" _ _
           (or_introl H)).
Defined.

(** ** Ranges on the command line *)

Lemma first_match_app {A B : Type} (f : A → option B) (l1 l2 : list A) :
  first_match f (l1 ++ l2)
  = match first_match f l1 with
    | Some y => Some y
    | None => first_match f l2
    end.
Proof.
  induction l1 as [|x l1 IH]; [done|]. cbn [app first_match].
  by destruct (f x).
Qed.

Lemma first_match_fmap {A B C : Type} (f : A → option B) (g : C → A) (l : list C) :
  first_match f (g <$> l) = first_match (λ x, f (g x)) l.
Proof.
  induction l as [|x l IH]; [done|]. cbn [fmap list_fmap first_match].
  destruct (f (g x)); [done|]. apply IH.
Qed.

Lemma span_digits_app (s : string) : s = (span_digits s).1 +:+ (span_digits s).2.
Proof.
  induction s as [|a s IH]; [done|]. cbn [span_digits].
  destruct (is_digit a); [|done]. cbn [fst snd].
  by rewrite string_app_cons, <- IH.
Qed.

Lemma span_digits_all_digits (s : string) : all_digits (span_digits s).1 = true.
Proof.
  induction s as [|a s IH]; [done|]. cbn [span_digits].
  destruct (is_digit a) eqn:Ha; [|done]. cbn [fst all_digits]. by rewrite Ha.
Qed.

Lemma span_digits_rest (s : string) : starts_with_digit (span_digits s).2 = false.
Proof.
  induction s as [|a s IH]; [done|]. cbn [span_digits].
  destruct (is_digit a) eqn:Ha; [done|]. cbn [snd starts_with_digit]. done.
Qed.

Lemma span_digits_nil (s : string) :
  (span_digits s).1 = "" → (span_digits s).2 = s ∧ starts_with_digit s = false.
Proof.
  destruct s as [|a s]; [done|]. cbn [span_digits starts_with_digit].
  by destruct (is_digit a).
Qed.

Lemma span_digits_cons (s : string) :
  (span_digits s).1 ≠ "" → starts_with_digit s = true.
Proof.
  destruct s as [|a s]; [done|]. cbn [span_digits starts_with_digit].
  by destruct (is_digit a).
Qed.

Lemma span_digits_of_app (d r : string) :
  all_digits d = true → starts_with_digit r = false →
  span_digits (d +:+ r) = (d, r).
Proof.
  intros Hd Hr. induction d as [|a d IH].
  - rewrite string_app_nil_l. destruct r as [|b r]; [done|].
    cbn [span_digits]. cbn in Hr. by rewrite Hr.
  - cbn [all_digits] in Hd. apply andb_true_iff in Hd as [Ha Hd].
    rewrite string_app_cons. cbn [span_digits]. rewrite Ha, (IH Hd). done.
Qed.

(** Backtracking into [\d+] never helps a continuation that cannot start at
    a digit: the search ends on the longest run or fails. *)
Lemma first_match_digit_runs {B : Type} (f : string * string → option B) (s : string) :
  (∀ m r, starts_with_digit r = true → f (m, r) = None) →
  first_match f (digit_runs s)
  = match (span_digits s).1 with
    | EmptyString => None
    | _ => f (span_digits s)
    end.
Proof.
  revert f. induction s as [|a s IH]; intros f Hf; [done|].
  cbn [digit_runs span_digits].
  destruct (is_digit a) eqn:Ha; [|done]. cbn [fst].
  rewrite first_match_app, first_match_fmap, IH.
  - cbn [fst snd first_match].
    destruct (span_digits s) as [d r] eqn:Hs. cbn [fst snd].
    destruct d as [|c d].
    + destruct (span_digits_nil s) as [Hr _]; [by rewrite Hs|].
      rewrite Hs in Hr. cbn in Hr. subst r. by destruct (f (String a "", s)).
    + destruct (f (String a (String c d), r)); [done|].
      rewrite Hf; [done|]. apply span_digits_cons. by rewrite Hs.
  - intros m r Hr. cbn [fst snd]. by apply Hf.
Qed.

Lemma at_end_starts_with_digit (r : string) :
  starts_with_digit r = true → at_end r = false.
Proof.
  destruct r as [|a r]; [done|]. cbn [starts_with_digit]. intros Ha.
  unfold at_end. rewrite bool_decide_eq_false_2 by done.
  rewrite bool_decide_eq_false_2; [done|].
  unfold newline. intros [= -> _]. by vm_compute in Ha.
Qed.

Lemma at_end_true (r : string) : at_end r = true ↔ r = "" ∨ r = newline.
Proof.
  unfold at_end. rewrite orb_true_iff, !bool_decide_eq_true. done.
Qed.

Lemma range_match_upper_eq (rest : string) :
  range_match_upper rest
  = match rest with
    | String a rest' =>
        if bool_decide (a = "-"%char)
        then match (span_digits rest').1 with
             | EmptyString => None
             | g2 => if at_end (span_digits rest').2 then Some g2 else None
             end
        else None
    | EmptyString => None
    end.
Proof.
  destruct rest as [|a rest']; [done|]. cbn [range_match_upper].
  case_bool_decide; [|done].
  rewrite first_match_digit_runs.
  - by destruct (span_digits rest') as [[|c d] r].
  - intros m r Hr. cbn [snd]. by rewrite at_end_starts_with_digit.
Qed.

Lemma range_match_upper_starts_with_digit (r : string) :
  starts_with_digit r = true → range_match_upper r = None.
Proof.
  destruct r as [|a r]; [done|]. cbn [starts_with_digit range_match_upper].
  intros Ha. rewrite bool_decide_eq_false_2; [done|].
  intros ->. by vm_compute in Ha.
Qed.

Lemma range_match_eq (text : string) :
  range_match text
  = match (span_digits text).1 with
    | EmptyString => None
    | g1 =>
        match range_match_upper (span_digits text).2 with
        | Some g2 => Some (g1, Some g2)
        | None => if at_end (span_digits text).2 then Some (g1, None) else None
        end
    end.
Proof.
  unfold range_match. rewrite first_match_digit_runs.
  - by destruct (span_digits text) as [[|c d] r].
  - intros m r Hr. cbn [fst snd].
    by rewrite range_match_upper_starts_with_digit, at_end_starts_with_digit.
Qed.

Lemma range_match_upper_end (nl : string) :
  nl = "" ∨ nl = newline → range_match_upper nl = None ∧ at_end nl = true
                           ∧ starts_with_digit nl = false.
Proof. by intros [->| ->]. Qed.

Lemma range_match_single (d nl : string) :
  all_digits d = true → d ≠ "" → nl = "" ∨ nl = newline →
  range_match (d +:+ nl) = Some (d, None).
Proof.
  intros Hd Hne Hnl. destruct (range_match_upper_end nl Hnl) as (Hu & He & Hs).
  rewrite range_match_eq, (span_digits_of_app d nl Hd Hs). cbn [fst snd].
  rewrite Hu, He. by destruct d.
Qed.

Lemma range_match_pair (d1 d2 nl : string) :
  all_digits d1 = true → d1 ≠ "" → all_digits d2 = true → d2 ≠ "" →
  nl = "" ∨ nl = newline →
  range_match (d1 +:+ "-" +:+ d2 +:+ nl) = Some (d1, Some d2).
Proof.
  intros Hd1 Hne1 Hd2 Hne2 Hnl.
  destruct (range_match_upper_end nl Hnl) as (Hu & He & Hs).
  rewrite range_match_eq, (span_digits_of_app d1 _ Hd1) by done. cbn [fst snd].
  rewrite range_match_upper_eq. rewrite string_app_cons, string_app_nil_l.
  rewrite bool_decide_eq_true_2 by done.
  rewrite (span_digits_of_app d2 nl Hd2 Hs). cbn [fst snd]. rewrite He.
  by destruct d1, d2.
Qed.

(** What a successful match says about the text. *)
Lemma range_match_shape (text g1 : string) (og2 : option string) :
  range_match text = Some (g1, og2) →
  all_digits g1 = true ∧ g1 ≠ ""
  ∧ ∃ nl, (nl = "" ∨ nl = newline)
          ∧ match og2 with
            | None => text = g1 +:+ nl
            | Some g2 => all_digits g2 = true ∧ g2 ≠ ""
                         ∧ text = g1 +:+ "-" +:+ g2 +:+ nl
            end.
Proof.
  rewrite range_match_eq.
  pose proof (span_digits_app text) as Happ.
  pose proof (span_digits_all_digits text) as Hall.
  destruct (span_digits text) as [d r]. cbn [fst snd] in *.
  destruct d as [|c d]; [done|].
  rewrite range_match_upper_eq.
  destruct r as [|a r'].
  - intros [= <- <-]. split; [done|]. split; [done|]. exists "". by split; [left|].
  - case_bool_decide as Ha.
    + subst a.
      pose proof (span_digits_app r') as Happ'.
      pose proof (span_digits_all_digits r') as Hall'.
      destruct (span_digits r') as [d2 r2]. cbn [fst snd] in *.
      assert (at_end (String "-" r') = false) as Hne by done.
      destruct d2 as [|c2 d2]; [by rewrite Hne|].
      destruct (at_end r2) eqn:He; [|by rewrite Hne].
      intros [= <- <-]. split; [done|]. split; [done|].
      exists r2. split; [by apply at_end_true|].
      split; [done|]. split; [done|].
      etrans; [exact Happ|]. f_equal.
      change (String "-" r' = String "-" (String c2 d2 +:+ r2)). by f_equal.
    + destruct (at_end (String a r')) eqn:He; [|done].
      intros [= <- <-]. split; [done|]. split; [done|].
      exists (String a r'). split; [by apply at_end_true|]. done.
Qed.

Lemma int_of_digits_short (max_str_digits : nat) (s : string) :
  (String.length s ≤ 640)%nat →
  int_of_digits max_str_digits s = Some (digits_value s).
Proof.
  intros Hs. unfold int_of_digits.
  by rewrite (proj2 (Nat.ltb_ge 640 (String.length s)) Hs).
Qed.

Lemma int_of_digits_None (max_str_digits : nat) (s : string) :
  int_of_digits max_str_digits s = None →
  (0 < max_str_digits)%nat ∧ (max_str_digits < String.length s)%nat.
Proof.
  unfold int_of_digits.
  destruct (640 <? String.length s)%nat; [|done].
  destruct (0 <? max_str_digits)%nat eqn:H0; [|done].
  destruct (max_str_digits <? String.length s)%nat eqn:H1; [|done].
  intros _. split; [by apply Nat.ltb_lt|by apply Nat.ltb_lt].
Qed.

Lemma is_digit_value (a : ascii) :
  is_digit a = true → (0 ≤ Z.of_nat (nat_of_ascii a) - 48 ∧ Z.of_nat (nat_of_ascii a) - 48 ≤ 9)%Z.
Proof.
  unfold is_digit. cbn zeta. rewrite andb_true_iff, !Nat.leb_le. lia.
Qed.

Lemma digits_value_from_nonneg (s : string) (acc : Z) :
  all_digits s = true → (0 ≤ acc)%Z → (0 ≤ digits_value_from acc s)%Z.
Proof.
  revert acc. induction s as [|a s IH]; intros acc Hs Hacc; [done|].
  cbn [all_digits] in Hs. apply andb_true_iff in Hs as [Ha Hs].
  cbn [digits_value_from]. apply IH; [done|].
  pose proof (is_digit_value a Ha). lia.
Qed.

Lemma string_length_app (s t : string) :
  String.length (s +:+ t) = (String.length s + String.length t)%nat.
Proof.
  induction s as [|a s IH]; [done|].
  rewrite string_app_cons. cbn [String.length]. by rewrite IH.
Qed.

(** Decimal numerals, as [str] prints a natural number. *)
Lemma pretty_N_char_digit (m : N) :
  (m < 10)%N →
  is_digit (pretty_N_char m) = true
  ∧ Z.of_nat (nat_of_ascii (pretty_N_char m)) - 48 = Z.of_N m.
Proof.
  intros Hm.
  assert (m = 0 ∨ m = 1 ∨ m = 2 ∨ m = 3 ∨ m = 4 ∨ m = 5 ∨ m = 6 ∨ m = 7
          ∨ m = 8 ∨ m = 9)%N as Hcases by lia.
  repeat (destruct Hcases as [->|Hcases]; [by vm_compute|]).
  subst m. by vm_compute.
Qed.

Lemma pretty_N_go_digits (x : N) (s : string) :
  all_digits s = true →
  all_digits (pretty_N_go x s) = true
  ∧ digits_value (pretty_N_go x s) = digits_value_from (Z.of_N x) s.
Proof.
  revert s. induction (N.lt_wf_0 x) as [x _ IH]. intros s Hs.
  assert (x = 0 ∨ 0 < x)%N as [->|Hx] by lia.
  - by rewrite pretty_N_go_0.
  - rewrite pretty_N_go_step by done.
    destruct (pretty_N_char_digit (x `mod` 10)%N) as [Hd Hv].
    { by apply N.mod_lt. }
    destruct (IH (x `div` 10)%N) with (s := String (pretty_N_char (x `mod` 10)) s)
      as [IH1 IH2].
    { by apply N.div_lt. }
    { cbn [all_digits]. by rewrite Hd, Hs. }
    split; [done|]. rewrite IH2. cbn [digits_value_from]. rewrite Hv.
    f_equal. rewrite (N.div_mod x 10) at 3 by done. lia.
Qed.

Lemma pretty_N_digits (n : N) :
  all_digits (pretty n) = true ∧ digits_value (pretty n) = Z.of_N n
  ∧ pretty n ≠ "".
Proof.
  unfold pretty, pretty_N. case_decide as Hn.
  - by subst n.
  - destruct (pretty_N_go_digits n "") as [H1 H2]; [done|].
    split; [done|]. split; [done|].
    intros Hnil. rewrite Hnil in H2. cbn in H2. lia.
Qed.

(** X24. Round trip with the decimal numerals: for natural numbers [a]
    and [b] of at most 640 digits, the text of [b] is read as
    [range(0, b)] and the text of [a], a dash and [b] as [range(a, b)]. *)
Theorem integerRangeArg_round_trip (max_str_digits : nat) (a b : N) :
  (String.length (pretty a) ≤ 640)%nat → (String.length (pretty b) ≤ 640)%nat →
  integerRangeArg max_str_digits (pretty b) = ReturnRange 0 (Z.of_N b)
  ∧ integerRangeArg max_str_digits (pretty a +:+ "-" +:+ pretty b)
    = ReturnRange (Z.of_N a) (Z.of_N b).
Proof.
  intros Ha Hb.
  destruct (pretty_N_digits a) as (Da & Va & Na).
  destruct (pretty_N_digits b) as (Db & Vb & Nb).
  unfold integerRangeArg. split.
  - rewrite <- (string_app_nil_r (pretty b)) at 1.
    rewrite range_match_single by auto.
    by rewrite int_of_digits_short, Vb.
  - rewrite <- (string_app_nil_r (pretty b)) at 1.
    rewrite range_match_pair by auto.
    by rewrite !int_of_digits_short, Va, Vb.
Qed.

Lemma integerRangeArg_round_trip_witness :
  (String.length (pretty 2%N) ≤ 640)%nat ∧ (String.length (pretty 15%N) ≤ 640)%nat
  ∧ integerRangeArg 4300 (pretty 15%N) = ReturnRange 0 15
  ∧ integerRangeArg 4300 (pretty 2%N +:+ "-" +:+ pretty 15%N) = ReturnRange 2 15.
Proof.
  assert (String.length (pretty 2%N) ≤ 640)%nat as Ha by (vm_compute; lia).
  assert (String.length (pretty 15%N) ≤ 640)%nat as Hb by (vm_compute; lia).
  split; [exact Ha|]. split; [exact Hb|].
  exact (integerRangeArg_round_trip 4300 2 15 Ha Hb).
Defined.

(** X25. The accepted forms: digits, or digits, a dash and digits, each
    with an optional final newline.  Leading zeros are read as decimal.  The
    bounds are not compared: when the second is not larger than the first
    the call returns an empty range and raises nothing. *)
Theorem integerRangeArg_accepts (max_str_digits : nat) (d1 d2 nl : string) :
  all_digits d1 = true → d1 ≠ "" → all_digits d2 = true → d2 ≠ "" →
  nl = "" ∨ nl = newline →
  (String.length d1 ≤ 640)%nat → (String.length d2 ≤ 640)%nat →
  integerRangeArg max_str_digits (d1 +:+ nl) = ReturnRange 0 (digits_value d1)
  ∧ integerRangeArg max_str_digits (d1 +:+ "-" +:+ d2 +:+ nl)
    = ReturnRange (digits_value d1) (digits_value d2)
  ∧ ((digits_value d2 ≤ digits_value d1)%Z →
     range_members (digits_value d1) (digits_value d2) = []).
Proof.
  intros Hd1 Hn1 Hd2 Hn2 Hnl Hl1 Hl2. unfold integerRangeArg.
  rewrite range_match_single, range_match_pair by done.
  rewrite !int_of_digits_short by done.
  split; [done|]. split; [done|].
  intros Hle. unfold range_members, seqZ.
  by replace (Z.to_nat (digits_value d2 - digits_value d1)) with 0%nat by lia.
Qed.

Lemma integerRangeArg_accepts_witness :
  integerRangeArg 4300 ("007" +:+ newline) = ReturnRange 0 7
  ∧ integerRangeArg 4300 ("007" +:+ "-" +:+ "5" +:+ newline) = ReturnRange 7 5
  ∧ range_members 7 5 = [].
Proof.
  destruct (integerRangeArg_accepts 4300 "007" "5" newline eq_refl
              ltac:(discriminate) eq_refl ltac:(discriminate)
              (or_intror eq_refl) ltac:(vm_compute; lia) ltac:(vm_compute; lia))
    as (H1 & H2 & H3).
  split; [exact H1|]. split; [exact H2|]. apply H3. by vm_compute.
Defined.

(** X26. Every call ends in one of two ways.  Either the text is rejected
    with the [ArgumentTypeError] whose message quotes it, or the text has
    one of the accepted forms and the two numbers are converted: the
    outcome is then the range, or the [ValueError] of a conversion. *)
Theorem integerRangeArg_outcomes (max_str_digits : nat) (text : string) :
  integerRangeArg max_str_digits text
  = RaiseArgumentTypeError (range_message text)
  ∨ ∃ g1 nl,
      all_digits g1 = true ∧ g1 ≠ "" ∧ (nl = "" ∨ nl = newline)
      ∧ ((text = g1 +:+ nl
          ∧ integerRangeArg max_str_digits text
            = match int_of_digits max_str_digits g1 with
              | Some stop => ReturnRange 0 stop
              | None => RaiseValueError
              end)
         ∨ ∃ g2, all_digits g2 = true ∧ g2 ≠ ""
                 ∧ text = g1 +:+ "-" +:+ g2 +:+ nl
                 ∧ integerRangeArg max_str_digits text
                   = match int_of_digits max_str_digits g1,
                           int_of_digits max_str_digits g2 with
                     | Some start, Some stop => ReturnRange start stop
                     | _, _ => RaiseValueError
                     end).
Proof.
  unfold integerRangeArg.
  destruct (range_match text) as [[g1 og2]|] eqn:Hm; [|by left].
  right. apply range_match_shape in Hm as (Hd1 & Hn1 & nl & Hnl & Hs).
  exists g1, nl. split; [done|]. split; [done|]. split; [done|].
  destruct og2 as [g2|].
  - right. destruct Hs as (Hd2 & Hn2 & Hs). exists g2.
    split; [done|]. split; [done|]. split; [done|].
    by destruct (int_of_digits max_str_digits g1).
  - left. by split.
Qed.

(** X27. A returned range never has a negative bound. *)
Theorem integerRangeArg_nonnegative (max_str_digits : nat) (text : string)
    (start stop : Z) :
  integerRangeArg max_str_digits text = ReturnRange start stop →
  (0 ≤ start)%Z ∧ (0 ≤ stop)%Z.
Proof.
  unfold integerRangeArg.
  destruct (range_match text) as [[g1 og2]|] eqn:Hm; [|done].
  apply range_match_shape in Hm as (Hd1 & _ & nl & _ & Hs).
  assert (∀ g v, all_digits g = true → int_of_digits max_str_digits g = Some v →
                 (0 ≤ v)%Z) as Hv.
  { intros g v Hg. unfold int_of_digits. destruct (_ && _); [done|].
    intros [= <-]. by apply digits_value_from_nonneg. }
  destruct og2 as [g2|].
  - destruct Hs as (Hd2 & _ & _).
    destruct (int_of_digits max_str_digits g1) as [v1|] eqn:H1; [|done].
    destruct (int_of_digits max_str_digits g2) as [v2|] eqn:H2; [|done].
    intros [= <- <-]. split; eauto.
  - destruct (int_of_digits max_str_digits g1) as [v1|] eqn:H1; [|done].
    intros [= <- <-]. split; [done|]. eauto.
Qed.

Lemma integerRangeArg_nonnegative_witness :
  integerRangeArg 4300 "0-5" = ReturnRange 0 5 ∧ (0 ≤ 0)%Z ∧ (0 ≤ 5)%Z.
Proof.
  assert (integerRangeArg 4300 "0-5" = ReturnRange 0 5) as H
    by (vm_compute; reflexivity).
  split; [exact H|]. exact (integerRangeArg_nonnegative _ _ _ _ H).
Defined.

(** X28. The only [ValueError] is the one of the digit limit: it is raised
    only when the interpreter has a limit and the text is longer than it. *)
Theorem integerRangeArg_ValueError (max_str_digits : nat) (text : string) :
  integerRangeArg max_str_digits text = RaiseValueError →
  (0 < max_str_digits)%nat ∧ (max_str_digits < String.length text)%nat.
Proof.
  unfold integerRangeArg.
  destruct (range_match text) as [[g1 og2]|] eqn:Hm; [|done].
  apply range_match_shape in Hm as (_ & _ & nl & _ & Hs).
  assert (String.length g1 ≤ String.length text)%nat as Hl1.
  { destruct og2 as [g2|]; [destruct Hs as (_ & _ & ->)|subst text];
      rewrite !string_length_app; lia. }
  destruct (int_of_digits max_str_digits g1) as [v1|] eqn:H1.
  - destruct og2 as [g2|]; [|done].
    destruct (int_of_digits max_str_digits g2) as [v2|] eqn:H2; [done|].
    intros _. apply int_of_digits_None in H2 as [? ?]. split; [done|].
    destruct Hs as (_ & _ & ->). rewrite !string_length_app. lia.
  - intros _. apply int_of_digits_None in H1 as [? ?]. split; [done|]. lia.
Qed.

Lemma integerRangeArg_ValueError_witness :
  integerRangeArg 640 long_digits = RaiseValueError
  ∧ (0 < 640)%nat ∧ (640 < String.length long_digits)%nat.
Proof.
  assert (integerRangeArg 640 long_digits = RaiseValueError) as H
    by (vm_compute; reflexivity).
  split; [exact H|]. exact (integerRangeArg_ValueError _ _ H).
Defined.
